(** * Resource locking service: a shallow embedding of the lease kernel

    The service grants named, time-bounded locks that live in one MongoDB
    collection.  This development embeds

    - the Joi schemas and the validation middleware
      ([lockRequestSchema], [unlockRequestSchema], [validateLockRequest],
      [validateUnlockRequest]),
    - the six route handlers of the resource router,
    - the error middleware ([notFound], [errorHandler]), and
    - the periodic clean-up of [app.js],

    as executable functions over an explicit collection, and proves the
    properties of the lease protocol about them.

    Conventions.  A [Date] is a number of milliseconds since the epoch, as
    [Date.getTime ()] gives it.  Every handler reads the clock once: the
    [now] argument stands for each [new Date ()] and [Date.now ()] of one
    invocation.  Request fields are modelled at the type their schema asks
    for; an absent field ([undefined]) is [None]. *)

From Stdlib Require Import ZArith List String Ascii Bool Lia.
From Stdlib Require Import Sorted Permutation.
Import ListNotations.

Local Open Scope string_scope.
Local Open Scope Z_scope.

(** ** Documents of the collection *)

Definition Date := Z.
Definition ObjectId := nat.

Record Metadata := mkMetadata {
  clientIp : string;
  userAgent : string;
  sessionId : string;
  purpose : string
}.

Record ResourceLock := mkResourceLock {
  _id : ObjectId;
  resourceName : string;
  lockedBy : string;
  lockType : string;
  lockedAt : Date;
  expiresAt : Date;
  lockDuration : Z;
  metadata : Metadata
}.

(** The collection, in insertion order. *)
Definition Store := list ResourceLock.

(** Modelled from the spec: the virtuals [remainingTime] and [isExpired] of
    the ResourceLock model, which is not among the sources.  The spec gives
    [remainingTimeSeconds = max(0, expiresAt - now)] and
    [isExpired = now >= expiresAt]; the rounding to whole seconds is the
    model's choice and no theorem depends on it. *)
Definition remainingTime (now : Date) (lock : ResourceLock) : Z :=
  Z.max 0 ((expiresAt lock - now) / 1000).

Definition isExpired (now : Date) (lock : ResourceLock) : bool :=
  expiresAt lock <=? now.

(** ** Store round trips

    Handlers are computations over the collection that may throw and that
    log every round trip to the store. *)

Inductive StoreOp :=
| OpFind | OpFindOne | OpCountDocuments | OpSave | OpDeleteOne | OpDeleteMany.

Record MongoError := mkMongoError { code : Z; errmsg : string }.

Definition M (A : Type) : Type :=
  Store -> (MongoError + A) * Store * list StoreOp.

Definition ret {A} (a : A) : M A := fun st => (inr a, st, []).

Definition throw {A} (e : MongoError) : M A := fun st => (inl e, st, []).

Definition bind {A B} (m : M A) (k : A -> M B) : M B :=
  fun st =>
    match m st with
    | (inl e, st1, t1) => (inl e, st1, t1)
    | (inr a, st1, t1) =>
        match k a st1 with
        | (r, st2, t2) => (r, st2, (t1 ++ t2)%list)
        end
    end.

(** [try { body } catch (error) { handler error }] *)
Definition try_catch {A} (body : M A) (handler : MongoError -> M A) : M A :=
  fun st =>
    match body st with
    | (inl e, st1, t1) =>
        match handler e st1 with
        | (r, st2, t2) => (r, st2, (t1 ++ t2)%list)
        end
    | ok => ok
    end.

Notation "x <- m ;; k" := (bind m (fun x => k))
  (at level 61, m at next level, right associativity).
Notation "m ;;; k" := (bind m (fun _ => k))
  (at level 61, right associativity).

(** What other requests and the clean-up timer do to the collection while
    a handler is suspended at an [await]. *)
Definition interleave (others : Store -> Store) : M unit :=
  fun st => (inr tt, others st, []).

(** *** Query filters *)

Definition by_resourceName (name : string) (d : ResourceLock) : bool :=
  String.eqb (resourceName d) name.

Definition by_id (id : ObjectId) (d : ResourceLock) : bool :=
  Nat.eqb (_id d) id.

(** [{ expiresAt: { $gt: now } }] *)
Definition expiresAt_gt (now : Date) (d : ResourceLock) : bool :=
  now <? expiresAt d.

(** [{ expiresAt: { $lt: now } }] *)
Definition expiresAt_lt (now : Date) (d : ResourceLock) : bool :=
  expiresAt d <? now.

(** *** Collection primitives *)

Fixpoint remove_first (p : ResourceLock -> bool) (st : Store) : Store :=
  match st with
  | [] => []
  | d :: rest => if p d then rest else d :: remove_first p rest
  end.

Definition findOne (p : ResourceLock -> bool) : M (option ResourceLock) :=
  fun st => (inr (List.find p st), st, [OpFindOne]).

Definition countDocuments (p : ResourceLock -> bool) : M Z :=
  fun st => (inr (Z.of_nat (List.length (filter p st))), st, [OpCountDocuments]).

(** [deleteOne] removes the first match and reports [deletedCount]. *)
Definition deleteOne (p : ResourceLock -> bool) : M Z :=
  fun st =>
    (inr (if existsb p st then 1 else 0), remove_first p st, [OpDeleteOne]).

Definition deleteMany (p : ResourceLock -> bool) : M Z :=
  fun st =>
    (inr (Z.of_nat (List.length (filter p st))),
     filter (fun d => negb (p d)) st, [OpDeleteMany]).

Definition E11000 : MongoError :=
  mkMongoError 11000 "E11000 duplicate key error collection".

(** Modelled from the spec: the unique index of the ResourceLock model,
    which is not among the sources.  The spec calls the insert an atomic
    insert-if-absent-by-key keyed on [resourceName]; the driver reports a
    rejected insert as error code 11000, the code the lock route tests for.
    The [_id] index of every collection is unique as well. *)
Definition duplicate_key (doc d : ResourceLock) : bool :=
  by_id (_id doc) d || by_resourceName (resourceName doc) d.

(** [await newLock.save ()] for a new document. *)
Definition save (doc : ResourceLock) : M unit :=
  fun st =>
    if existsb (duplicate_key doc) st
    then (inl E11000, st, [OpSave])
    else (inr tt, (st ++ [doc])%list, [OpSave]).

(** [save ()] of a document that was read from the collection: the stored
    document with the same [_id] is replaced. *)
Definition save_modified (doc : ResourceLock) : M unit :=
  fun st =>
    (inr tt, map (fun d => if by_id (_id doc) d then doc else d) st, [OpSave]).

(** ** Joi schemas

    [schema.validate] stops at the first failing key (Joi's default
    [abortEarly]) and reports one detail: the key and the failed rule.  The
    text of [detail.message] is a function of the two, so a detail stands
    for its message. *)

Inductive Field :=
| FResourceName | FLockedBy | FLockDuration | FLockType | FPurpose | FSessionId.

Inductive ErrorType :=
| AnyRequired         (* any.required *)
| AnyOnly             (* any.only *)
| StringEmpty         (* string.empty *)
| StringMin           (* string.min *)
| StringMax           (* string.max *)
| StringPatternBase   (* string.pattern.base *)
| NumberUnsafe        (* number.unsafe *)
| NumberMin           (* number.min *)
| NumberMax.          (* number.max *)

Record Detail := mkDetail { path : Field; type : ErrorType }.

Inductive StringRule :=
| Min (limit : nat)
| Max (limit : nat)
| Pattern (regex : string -> bool)
| Valid (values : list string).

Inductive NumberRule :=
| Integer
| NMin (limit : Z)
| NMax (limit : Z).

Definition string_rule (r : StringRule) (s : string) : option ErrorType :=
  match r with
  | Min n => if Nat.ltb (String.length s) n then Some StringMin else None
  | Max n => if Nat.ltb n (String.length s) then Some StringMax else None
  | Pattern re => if re s then None else Some StringPatternBase
  | Valid vs => if existsb (String.eqb s) vs then None else Some AnyOnly
  end.

(** The numbers of the model are integers, so [integer ()] always passes. *)
Definition number_rule (r : NumberRule) (n : Z) : option ErrorType :=
  match r with
  | Integer => None
  | NMin l => if n <? l then Some NumberMin else None
  | NMax l => if l <? n then Some NumberMax else None
  end.

Fixpoint first_error {A R} (check : R -> A -> option ErrorType)
    (rules : list R) (v : A) : option ErrorType :=
  match rules with
  | [] => None
  | r :: rest =>
      match check r v with
      | Some e => Some e
      | None => first_error check rest v
      end
  end.

Definition has_valid (rules : list StringRule) : bool :=
  existsb (fun r => match r with Valid _ => true | _ => false end) rules.

(** [Joi.string ()]: the empty string is refused before any rule runs,
    unless an allow-list decides first. *)
Definition joi_string (rules : list StringRule) (s : string)
  : option ErrorType :=
  if has_valid rules then first_error string_rule rules s
  else if String.eqb s "" then Some StringEmpty
  else first_error string_rule rules s.

Definition MAX_SAFE_INTEGER : Z := 9007199254740991.

(** [Joi.number ()]: a number outside the safe integer range is refused
    before any rule runs. *)
Definition joi_number (rules : list NumberRule) (n : Z) : option ErrorType :=
  if (MAX_SAFE_INTEGER <? n) || (n <? - MAX_SAFE_INTEGER)
  then Some NumberUnsafe
  else first_error number_rule rules n.

(** A key that is [required ()]. *)
Definition required {A} (f : Field) (check : A -> option ErrorType)
    (v : option A) : Detail + A :=
  match v with
  | None => inl (mkDetail f AnyRequired)
  | Some a =>
      match check a with
      | Some e => inl (mkDetail f e)
      | None => inr a
      end
  end.

(** A key with a [default (d)]. *)
Definition optional {A} (f : Field) (check : A -> option ErrorType)
    (d : A) (v : option A) : Detail + A :=
  match v with
  | None => inr d
  | Some a =>
      match check a with
      | Some e => inl (mkDetail f e)
      | None => inr a
      end
  end.

(** The character class [[a-zA-Z0-9._-]]. *)
Definition allowed_char (c : ascii) : bool :=
  let n := nat_of_ascii c in
  (Nat.leb 97 n && Nat.leb n 122)        (* a-z *)
  || (Nat.leb 65 n && Nat.leb n 90)      (* A-Z *)
  || (Nat.leb 48 n && Nat.leb n 57)      (* 0-9 *)
  || Nat.eqb n 46                        (* .   *)
  || Nat.eqb n 95                        (* _   *)
  || Nat.eqb n 45.                       (* -   *)

Fixpoint all_chars (p : ascii -> bool) (s : string) : bool :=
  match s with
  | EmptyString => true
  | String c rest => p c && all_chars p rest
  end.

(** [/^[a-zA-Z0-9._-]+$/.test (s)] *)
Definition resourceName_pattern (s : string) : bool :=
  negb (String.eqb s "") && all_chars allowed_char s.

(** The request body of [POST /lock] as the client sends it. *)
Record LockBody := mkLockBody {
  body_resourceName : option string;
  body_lockedBy : option string;
  body_lockDuration : option Z;
  body_lockType : option string;
  body_purpose : option string;
  body_sessionId : option string
}.

(** [req.body] as the handler of [POST /lock] destructures it: the two
    required keys are present, the others may be [undefined]. *)
Record LockRequest := mkLockRequest {
  req_resourceName : string;
  req_lockedBy : string;
  req_lockDuration : option Z;
  req_lockType : option string;
  req_purpose : option string;
  req_sessionId : option string
}.

Definition and_then {E A B} (r : E + A) (k : A -> E + B) : E + B :=
  match r with
  | inl e => inl e
  | inr a => k a
  end.

(** [lockRequestSchema.validate (body)]: [inl] is [error], [inr] is
    [value], with the defaults filled in. *)
Definition lockRequestSchema (b : LockBody) : Detail + LockRequest :=
  and_then (required FResourceName
              (joi_string [Min 1; Max 255; Pattern resourceName_pattern])
              (body_resourceName b)) (fun resourceName =>
  and_then (required FLockedBy (joi_string [Min 1; Max 100])
              (body_lockedBy b)) (fun lockedBy =>
  and_then (optional FLockDuration (joi_number [Integer; NMin 1; NMax 86400])
              300 (body_lockDuration b)) (fun lockDuration =>
  and_then (optional FLockType
              (joi_string [Valid ["read"; "write"; "exclusive"]])
              "exclusive" (body_lockType b)) (fun lockType =>
  and_then (optional FPurpose (joi_string [Max 255]) ""
              (body_purpose b)) (fun purpose =>
  and_then (optional FSessionId (joi_string [Max 100]) ""
              (body_sessionId b)) (fun sessionId =>
  inr (mkLockRequest resourceName lockedBy (Some lockDuration)
         (Some lockType) (Some purpose) (Some sessionId)))))))).

Record UnlockBody := mkUnlockBody {
  ubody_resourceName : option string;
  ubody_lockedBy : option string
}.

Record UnlockRequest := mkUnlockRequest {
  ureq_resourceName : string;
  ureq_lockedBy : string
}.

Definition unlockRequestSchema (b : UnlockBody) : Detail + UnlockRequest :=
  and_then (required FResourceName
              (joi_string [Min 1; Max 255; Pattern resourceName_pattern])
              (ubody_resourceName b)) (fun resourceName =>
  and_then (required FLockedBy (joi_string [Min 1; Max 100])
              (ubody_lockedBy b)) (fun lockedBy =>
  inr (mkUnlockRequest resourceName lockedBy))).

(** ** Responses *)

Record LockSummary := mkLockSummary {
  sum_lock : ResourceLock;
  sum_remainingTime : Z;
  sum_isExpired : bool
}.

Record Pagination := mkPagination {
  currentPage : Z;
  totalPages : option Z;    (* [None]: not a finite number *)
  totalResources : Z;
  hasNext : bool;
  hasPrev : bool
}.

(** The [data], [errors], [error] and [pagination] members of a response.
    Where the handler copies fields of a document into [data], the payload
    carries the document. *)
Inductive Payload :=
| NoPayload
| ValidationErrors (errors : list Detail)
| ErrorMessage (error : string)
| Listing (data : list LockSummary) (pagination : Pagination)
| Available (name : string)
| Locked (lock : ResourceLock) (remaining : Z)
| Holder (name owner : string) (expires : Date) (remaining : Z)
| Created (lock : ResourceLock) (remaining : Z)
| Unlocked (name unlockedBy : string) (unlockedAt : Date)
| Extended (name : string) (expires : Date) (remaining : Z) (extendedBy : Z)
| ForceUnlocked (name : string) (forceUnlockedAt : Date).

Record Response := mkResponse {
  status : Z;
  success : bool;
  message : string;
  payload : Payload
}.

(** [res.json (...)] without [res.status (...)] answers 200. *)
Definition json (success : bool) (message : string) (p : Payload) : Response :=
  mkResponse 200 success message p.

(** ** Validation middleware

    The middleware answers 400 itself, or replaces [req.body] by the
    validated value and calls [next]. *)
Definition validation_error (d : Detail) : Response :=
  mkResponse 400 false "Validation error" (ValidationErrors [d]).

Definition validateLockRequest (b : LockBody) (next : LockRequest -> M Response)
  : M Response :=
  match lockRequestSchema b with
  | inl error => ret (validation_error error)
  | inr value => next value
  end.

Definition validateUnlockRequest (b : UnlockBody)
    (next : UnlockRequest -> M Response) : M Response :=
  match unlockRequestSchema b with
  | inl error => ret (validation_error error)
  | inr value => next value
  end.

(** ** The ResourceLock model *)

(** Modelled from the spec: the static [ResourceLock.getLockInfo] of the
    model, which is not among the sources.  The spec has the status read
    and the acquisition pre-check restrict to leases on the resource name
    with [expiresAt > now]. *)
Definition getLockInfo (now : Date) (name : string)
  : M (option ResourceLock) :=
  findOne (fun d => by_resourceName name d && expiresAt_gt now d).

Definition set_expiresAt (lock : ResourceLock) (t : Date) : ResourceLock :=
  mkResourceLock (_id lock) (resourceName lock) (lockedBy lock)
    (lockType lock) (lockedAt lock) t (lockDuration lock) (metadata lock).

(** Modelled from the spec: the method [extendLock] of the model, which is
    not among the sources.  The spec gives [expiresAt += additionalSeconds]
    with no check of the sum, persisted to the existing record, identity
    unchanged.  The extended document is returned because the handler reads
    [lock.expiresAt] after the call. *)
Definition extendLock (lock : ResourceLock) (additionalSeconds : Z)
  : M ResourceLock :=
  let extended :=
    set_expiresAt lock (expiresAt lock + additionalSeconds * 1000) in
  save_modified extended ;;; ret extended.

(** ** Route handlers *)

Definition default {A} (d : A) (v : option A) : A :=
  match v with
  | Some a => a
  | None => d
  end.

(** [if (v)] on a query-string parameter. *)
Definition truthy (v : option string) : option string :=
  match v with
  | Some s => if String.eqb s "" then None else Some s
  | None => None
  end.

Definition server_error (msg : string) (error : MongoError) : Response :=
  mkResponse 500 false msg (ErrorMessage (errmsg error)).

(** *** GET / *)

Record ListQuery := mkListQuery {
  query_page : option Z;
  query_limit : option Z;
  query_lockedBy : option string;
  query_lockType : option string
}.

Section Listing.

(** [new RegExp (pattern, 'i')]: [None] when the constructor throws a
    SyntaxError on an invalid pattern, otherwise the [test] of the
    compiled expression.  The regular-expression engine is the platform's
    and is taken as given. *)
Variable regexp_i : string -> option (string -> bool).

(** The SyntaxError of [new RegExp]; it has no [code]. *)
Definition regexp_error : MongoError :=
  mkMongoError 0 "Invalid regular expression".

(** [if (lockedBy) query.lockedBy = new RegExp (lockedBy, 'i')]: the owner
    condition of the query, if any, or the error thrown while building
    it. *)
Definition owner_filter (q : ListQuery)
  : MongoError + option (string -> bool) :=
  match truthy (query_lockedBy q) with
  | Some pattern =>
      match regexp_i pattern with
      | Some test => inr (Some test)
      | None => inl regexp_error
      end
  | None => inr None
  end.

(** The query the route sends once it is built. *)
Definition list_filter (now : Date) (q : ListQuery) (d : ResourceLock)
  : bool :=
  expiresAt_gt now d
  && match owner_filter q with
     | inr (Some test) => test (lockedBy d)
     | _ => true
     end
  && match truthy (query_lockType q) with
     | Some t => String.eqb (lockType d) t
     | None => true
     end.

(** [sort ({ lockedAt: -1 })], stable. *)
Fixpoint insert_by_lockedAt (d : ResourceLock) (l : list ResourceLock)
  : list ResourceLock :=
  match l with
  | [] => [d]
  | x :: rest =>
      if lockedAt x <=? lockedAt d then d :: x :: rest
      else x :: insert_by_lockedAt d rest
  end.

Definition sort_lockedAt_desc (l : list ResourceLock) : list ResourceLock :=
  fold_right insert_by_lockedAt [] l.

Definition skip_error : MongoError :=
  mkMongoError 2 "Skip value must be non-negative".

(** [find (query).sort (..).limit (limit).skip (skip)]: the store skips
    first and limits next, refuses a negative skip, reads limit 0 as no
    limit and a negative limit as its absolute value. *)
Definition find_page (p : ResourceLock -> bool) (limit skip : Z)
  : M (list ResourceLock) :=
  fun st =>
    if skip <? 0 then (inl skip_error, st, [OpFind])
    else
      let rest := skipn (Z.to_nat skip) (sort_lockedAt_desc (filter p st)) in
      (inr (if limit =? 0 then rest else firstn (Z.to_nat (Z.abs limit)) rest),
       st, [OpFind]).

(** [Math.ceil (total / limit)] *)
Definition ceil_div (total limit : Z) : option Z :=
  if limit =? 0 then None else Some (- ((- total) / limit)).

Definition summary (now : Date) (lock : ResourceLock) : LockSummary :=
  mkLockSummary lock (remainingTime now lock) (isExpired now lock).

Definition get_resources (now : Date) (q : ListQuery) : M Response :=
  try_catch
    (let page := default 1 (query_page q) in
     let limit := default 20 (query_limit q) in
     match owner_filter q with
     | inl error => throw error
     | inr _ => ret tt
     end ;;;
     let query := list_filter now q in
     locks <- find_page query (limit * 1) ((page - 1) * limit) ;;
     total <- countDocuments query ;;
     let locksWithStatus := map (summary now) locks in
     ret (json true ""
            (Listing locksWithStatus
               (mkPagination page (ceil_div total limit) total
                  (page * limit <? total) (1 <? page)))))
    (fun error => ret (server_error "Error fetching resources" error)).

End Listing.

(** *** GET /:resourceName *)

Definition get_resource (now : Date) (resourceName : string) : M Response :=
  try_catch
    (lock <- getLockInfo now resourceName ;;
     match lock with
     | None => ret (json true "" (Available resourceName))
     | Some lock => ret (json true "" (Locked lock (remainingTime now lock)))
     end)
    (fun error => ret (server_error "Error checking resource status" error)).

(** *** POST /lock *)

(** What the handler reads from the request besides the body. *)
Record Client := mkClient {
  req_ip : string;            (* req.ip *)
  req_userAgent : string      (* req.get ('User-Agent') *)
}.

(** The document [new ResourceLock ({...})] builds.  Its [_id] is drawn by
    the driver and is an argument here.  Modelled from the spec: [lockedAt]
    is set by the schema of the model, which is not among the sources; the
    spec has [expiresAt = acquiredAt + requestedDurationSeconds]. *)
Definition new_lock (now : Date) (id : ObjectId) (client : Client)
    (req : LockRequest) : ResourceLock :=
  let lockDuration := default 300 (req_lockDuration req) in
  let lockType := default "exclusive" (req_lockType req) in
  let purpose := default "" (req_purpose req) in
  let sessionId := default "" (req_sessionId req) in
  let expiresAt := now + lockDuration * 1000 in
  mkResourceLock id (req_resourceName req) (req_lockedBy req) lockType
    now expiresAt lockDuration
    (mkMetadata (req_ip client) (req_userAgent client) sessionId purpose).

Definition already_locked (now : Date) (existingLock : ResourceLock)
  : Response :=
  mkResponse 409 false "Resource is already locked"
    (Holder (resourceName existingLock) (lockedBy existingLock)
       (expiresAt existingLock) (remainingTime now existingLock)).

Definition lock_handler (others : Store -> Store) (now : Date)
    (id : ObjectId) (client : Client) (req : LockRequest) : M Response :=
  try_catch
    (existingLock <- getLockInfo now (req_resourceName req) ;;
     match existingLock with
     | Some existingLock => ret (already_locked now existingLock)
     | None =>
         let newLock := new_lock now id client req in
         interleave others ;;;
         save newLock ;;;
         ret (mkResponse 201 true "Resource locked successfully"
                (Created newLock (remainingTime now newLock)))
     end)
    (fun error =>
       if code error =? 11000
       then ret (mkResponse 409 false
                   "Resource is already locked by another process" NoPayload)
       else ret (server_error "Error locking resource" error)).

Definition post_lock (others : Store -> Store) (now : Date) (id : ObjectId)
    (client : Client) (body : LockBody) : M Response :=
  validateLockRequest body (lock_handler others now id client).

(** *** POST /unlock *)

Definition owned_active (now : Date) (name owner : string) (d : ResourceLock)
  : bool :=
  by_resourceName name d && String.eqb (lockedBy d) owner
  && expiresAt_gt now d.

Definition unlock_handler (others : Store -> Store) (now : Date)
    (req : UnlockRequest) : M Response :=
  try_catch
    (let resourceName := ureq_resourceName req in
     let lockedBy := ureq_lockedBy req in
     lock <- findOne (owned_active now resourceName lockedBy) ;;
     match lock with
     | None =>
         ret (mkResponse 404 false
                "Lock not found or you are not authorized to unlock this resource"
                NoPayload)
     | Some lock =>
         interleave others ;;;
         deleteOne (by_id (_id lock)) ;;;
         ret (json true "Resource unlocked successfully"
                (Unlocked resourceName lockedBy now))
     end)
    (fun error => ret (server_error "Error unlocking resource" error)).

Definition post_unlock (others : Store -> Store) (now : Date)
    (body : UnlockBody) : M Response :=
  validateUnlockRequest body (unlock_handler others now).

(** *** PUT /:resourceName/extend *)

(** The route has no validation middleware; [lockedBy] is modelled as a
    string, [additionalSeconds] as an integer that may be absent. *)
Record ExtendBody := mkExtendBody {
  ebody_lockedBy : string;
  ebody_additionalSeconds : option Z
}.

Definition put_extend (others : Store -> Store) (now : Date)
    (name : string) (body : ExtendBody) : M Response :=
  try_catch
    (let lockedBy := ebody_lockedBy body in
     let additionalSeconds := default 300 (ebody_additionalSeconds body) in
     lock <- findOne (owned_active now name lockedBy) ;;
     match lock with
     | None =>
         ret (mkResponse 404 false
                "Lock not found or you are not authorized to extend this lock"
                NoPayload)
     | Some lock =>
         interleave others ;;;
         lock <- extendLock lock additionalSeconds ;;
         ret (json true "Lock extended successfully"
                (Extended (resourceName lock) (expiresAt lock)
                   (remainingTime now lock) additionalSeconds))
     end)
    (fun error => ret (server_error "Error extending lock" error)).

(** *** DELETE /:resourceName/force-unlock *)

(** [a !== b] on values that are strings or [undefined]. *)
Definition strict_neq (a b : option string) : bool :=
  match a, b with
  | Some x, Some y => negb (String.eqb x y)
  | None, None => false
  | _, _ => true
  end.

(** [ADMIN_KEY] is [process.env.ADMIN_KEY]. *)
Definition delete_force_unlock (ADMIN_KEY : option string) (now : Date)
    (resourceName : string) (adminKey : option string) : M Response :=
  try_catch
    (if strict_neq adminKey ADMIN_KEY
     then ret (mkResponse 403 false "Unauthorized: Invalid admin key" NoPayload)
     else
       deletedCount <- deleteOne (by_resourceName resourceName) ;;
       if deletedCount =? 0
       then ret (mkResponse 404 false "Resource lock not found" NoPayload)
       else ret (json true "Resource force unlocked successfully"
                   (ForceUnlocked resourceName now)))
    (fun error => ret (server_error "Error force unlocking resource" error)).

(** ** The clean-up timer of app.js *)

Inductive LogLine :=
| CleanedUp (deletedCount : Z)
| CleaningError (error : MongoError).

(** One tick of [setInterval (..., 60000)]: the deleted count and what the
    tick writes to the console. *)
Definition cleanup (now : Date) : M (Z * list LogLine) :=
  try_catch
    (deletedCount <- deleteMany (expiresAt_lt now) ;;
     ret (deletedCount,
          if 0 <? deletedCount then [CleanedUp deletedCount] else []))
    (fun error => ret (0, [CleaningError error])).

Definition cleanup_period : Z := 60000.

(** ** Reading the outcome of a handler *)

Definition answer {A} (r : (MongoError + A) * Store * list StoreOp)
  : MongoError + A := fst (fst r).

Definition store_after {A} (r : (MongoError + A) * Store * list StoreOp)
  : Store := snd (fst r).

Definition round_trips {A} (r : (MongoError + A) * Store * list StoreOp)
  : list StoreOp := snd r.

(** A lease is active at [now] when [expiresAt > now]. *)
Definition active (now : Date) (d : ResourceLock) : Prop := now < expiresAt d.

(** The unique index on [resourceName], as a property of a collection. *)
Definition unique_names (st : Store) : Prop := NoDup (map resourceName st).

(** A collection that respects both unique indexes. *)
Definition consistent (st : Store) : Prop :=
  unique_names st /\ NoDup (map _id st).

(** The lease classes of the schema. *)
Inductive LeaseClass := ClassRead | ClassWrite | ClassExclusive.

Definition class_name (c : LeaseClass) : string :=
  match c with
  | ClassRead => "read"
  | ClassWrite => "write"
  | ClassExclusive => "exclusive"
  end.

Fixpoint occurs (c : ascii) (s : string) : Prop :=
  match s with
  | EmptyString => False
  | String c' rest => c = c' \/ occurs c rest
  end.

(** The documents and the count a listing response shows. *)
Definition listed (r : MongoError + Response) : list ResourceLock :=
  match r with
  | inr (mkResponse _ _ _ (Listing data _)) => map sum_lock data
  | _ => []
  end.

Definition listed_total (r : MongoError + Response) : option Z :=
  match r with
  | inr (mkResponse _ _ _ (Listing _ pagination)) =>
      Some (totalResources pagination)
  | _ => None
  end.

(** The collection without its logically expired records. *)
Definition live (now : Date) (st : Store) : Store :=
  filter (expiresAt_gt now) st.

(** An Acquire body the validation layer refuses: the resource name is
    empty (absent or the empty string), longer than 255 characters or has a
    character outside the pattern, the duration is outside [1, 86400], or
    the owner token is empty. *)
Definition malformed_acquire (b : LockBody) : Prop :=
  body_resourceName b = None
  \/ body_resourceName b = Some ""
  \/ (exists s, body_resourceName b = Some s /\ (255 < String.length s)%nat)
  \/ (exists s c, body_resourceName b = Some s /\ occurs c s
                  /\ allowed_char c = false)
  \/ (exists n, body_lockDuration b = Some n /\ (n < 1 \/ 86400 < n))
  \/ body_lockedBy b = None
  \/ body_lockedBy b = Some "".

(** *** What a refused body is told

    The detail a refused body gets, read off the schemas: the first key in
    schema order whose value breaks a rule, and the first rule it breaks. *)

Definition well_formed_name (v : option string) : Prop :=
  exists s, v = Some s /\ s <> "" /\ (String.length s <= 255)%nat
            /\ all_chars allowed_char s = true.

Definition well_formed_owner (v : option string) : Prop :=
  exists s, v = Some s /\ s <> "" /\ (String.length s <= 100)%nat.

Inductive name_failure (v : option string) : ErrorType -> Prop :=
| name_required : v = None -> name_failure v AnyRequired
| name_empty : v = Some "" -> name_failure v StringEmpty
| name_too_long s :
    v = Some s -> (255 < String.length s)%nat -> name_failure v StringMax
| name_off_pattern s c :
    v = Some s -> s <> "" -> (String.length s <= 255)%nat ->
    occurs c s -> allowed_char c = false ->
    name_failure v StringPatternBase.

Inductive owner_failure (v : option string) : ErrorType -> Prop :=
| owner_required : v = None -> owner_failure v AnyRequired
| owner_empty : v = Some "" -> owner_failure v StringEmpty
| owner_too_long s :
    v = Some s -> (100 < String.length s)%nat -> owner_failure v StringMax.

Inductive duration_failure (v : option Z) : ErrorType -> Prop :=
| duration_unsafe n :
    v = Some n -> MAX_SAFE_INTEGER < n \/ n < - MAX_SAFE_INTEGER ->
    duration_failure v NumberUnsafe
| duration_too_short n :
    v = Some n -> - MAX_SAFE_INTEGER <= n < 1 -> duration_failure v NumberMin
| duration_too_long n :
    v = Some n -> 86400 < n <= MAX_SAFE_INTEGER ->
    duration_failure v NumberMax.

(** The detail of a refused Acquire whose failing key is among the first
    three of the schema. *)
Inductive acquire_failure (b : LockBody) : Detail -> Prop :=
| acquire_fails_on_name e :
    name_failure (body_resourceName b) e ->
    acquire_failure b (mkDetail FResourceName e)
| acquire_fails_on_owner e :
    well_formed_name (body_resourceName b) ->
    owner_failure (body_lockedBy b) e ->
    acquire_failure b (mkDetail FLockedBy e)
| acquire_fails_on_duration e :
    well_formed_name (body_resourceName b) ->
    well_formed_owner (body_lockedBy b) ->
    duration_failure (body_lockDuration b) e ->
    acquire_failure b (mkDetail FLockDuration e).

(** The detail of a refused Release. *)
Inductive release_failure (b : UnlockBody) : Detail -> Prop :=
| release_fails_on_name e :
    name_failure (ubody_resourceName b) e ->
    release_failure b (mkDetail FResourceName e)
| release_fails_on_owner e :
    well_formed_name (ubody_resourceName b) ->
    owner_failure (ubody_lockedBy b) e ->
    release_failure b (mkDetail FLockedBy e).

(** ** Scenarios *)

Definition no_others (st : Store) : Store := st.

(** What a run of the scenario below shows: the three answers, the
    collection the force-unlock finds and the collection it leaves. *)
Record ScenarioRun := mkScenarioRun {
  run_acquired : MongoError + Response;
  run_read : MongoError + Response;
  run_forced : MongoError + Response;
  run_found : Store;
  run_left : Store
}.

(** A lease is acquired for one second at [t0]; two seconds later the
    status is read and the lease is force-unlocked with the right key.
    [swept] is the time of a clean-up tick that ran after the acquisition
    and before the two requests, if there was one. *)
Definition expired_force_unlock (swept : option Date) (key : option string)
    (t0 : Date) (id : ObjectId) (client : Client) (name owner : string)
    (st0 : Store) : ScenarioRun :=
  let body := mkLockBody (Some name) (Some owner) (Some 1) None None None in
  let acquired := post_lock no_others t0 id client body st0 in
  let st1 := store_after acquired in
  let st2 :=
    match swept with
    | Some t => store_after (cleanup t st1)
    | None => st1
    end in
  let read := get_resource (t0 + 2000) name st2 in
  let forced :=
    delete_force_unlock key (t0 + 2000) name key (store_after read) in
  mkScenarioRun (answer acquired) (answer read) (answer forced)
    (store_after read) (store_after forced).

(** Sample data. *)
Definition sample_client : Client := mkClient "10.0.0.7" "curl/8.4".

Definition request_of_worker_A : LockRequest :=
  mkLockRequest "db-migration-01" "worker-A" (Some 300) (Some "write")
    (Some "") (Some "").

(** The lease of worker-A, acquired at time 0 for 300 seconds. *)
Definition lock_of_worker_A : ResourceLock :=
  new_lock 0 1%nat sample_client request_of_worker_A.

Definition body_of_worker_B : LockBody :=
  mkLockBody (Some "db-migration-01") (Some "worker-B") None (Some "read")
    None None.

Definition request_of_worker_B : LockRequest :=
  mkLockRequest "db-migration-01" "worker-B" (Some 300) (Some "read")
    (Some "") (Some "").

Definition body_without_options : LockBody :=
  mkLockBody (Some "cache-flush") (Some "worker-C") None None None None.

Definition unlock_body_of_worker_B : UnlockBody :=
  mkUnlockBody (Some "db-migration-01") (Some "worker-B").

(** The lease of worker-C, acquired at time 0 for one second. *)
Definition lock_of_worker_C : ResourceLock :=
  new_lock 0 2%nat sample_client
    (mkLockRequest "cache-flush" "worker-C" (Some 1) (Some "exclusive")
       (Some "") (Some "")).

Definition request_without_options : LockRequest :=
  mkLockRequest "cache-flush" "worker-C" (Some 300) (Some "exclusive")
    (Some "") (Some "").

Definition any_owner (pattern : string) : option (string -> bool) :=
  Some (fun subject => true).

Definition first_page : ListQuery := mkListQuery None None None None.

(** worker-A wins the race between the pre-check and the insert. *)
Definition worker_A_wins (st : Store) : Store :=
  (st ++ [lock_of_worker_A])%list.

(** ** Error middleware *)

(** An [Error] object: its message and the stack the engine recorded. *)
Record JsError := mkJsError {
  err_message : string;
  err_stack : string
}.

(** What [errorHandler] sends. *)
Record ErrorBody := mkErrorBody {
  error_status : Z;
  error_success : bool;
  error_message : string;
  error_stack : option string;      (* [None] is [null] *)
  error_timestamp : Date
}.

(** [notFound]: sets the status of the response to 404 and passes the
    error to the next middleware.  The pair is the status it leaves on the
    response and the error it passes on. *)
Definition notFound (originalUrl stack : string) : Z * JsError :=
  (404, mkJsError ("Not Found - " ++ originalUrl) stack).

(** [errorHandler]; [res_statusCode] is [res.statusCode] when it runs and
    [NODE_ENV] is [process.env.NODE_ENV]. *)
Definition errorHandler (NODE_ENV : option string) (now : Date)
    (err : JsError) (res_statusCode : Z) : ErrorBody :=
  let statusCode := if res_statusCode =? 200 then 500 else res_statusCode in
  mkErrorBody statusCode false (err_message err)
    (match NODE_ENV with
     | Some env =>
         if String.eqb env "production" then None else Some (err_stack err)
     | None => Some (err_stack err)
     end)
    now.

(** A request as the global middleware of app.js sees it. *)
Record Incoming := mkIncoming {
  in_method : string;               (* req.method *)
  in_originalUrl : string;          (* req.originalUrl *)
  in_body_error : option JsError    (* what express.json () passes on *)
}.

(** How a request that no route matches is answered. *)
Inductive Answered :=
| Preflight                         (* status 204, no body *)
| Failed (body : ErrorBody).

(** The global middleware of app.js, in order, for a request that no route
    matches.  [helmet ()] and [morgan ()] set headers and log and answer
    nothing.  [cors ()], with its defaults, answers every OPTIONS request
    itself with 204.  [express.json ()] passes an error on when it cannot
    read the body ([in_body_error]; [None] when it accepted the body or
    there was none); the error skips [notFound] and reaches [errorHandler]
    while the status of the response is still 200.  Otherwise [notFound]
    runs, then [errorHandler].  [stack] is the stack the engine records
    for the error [notFound] creates. *)
Definition unmatched_route (NODE_ENV : option string) (now : Date)
    (req : Incoming) (stack : string) : Answered :=
  if String.eqb (in_method req) "OPTIONS" then Preflight
  else
    match in_body_error req with
    | Some err => Failed (errorHandler NODE_ENV now err 200)
    | None =>
        let '(statusCode, error) := notFound (in_originalUrl req) stack in
        Failed (errorHandler NODE_ENV now error statusCode)
    end.

(** ** Reading a listing *)

(** The [lockedBy] parameter of the query, if given and not empty, is a
    pattern that [new RegExp] accepts. *)
Definition owner_pattern_compiles (regexp_i : string -> option (string -> bool))
    (q : ListQuery) : Prop :=
  exists owner, owner_filter regexp_i q = inr owner.

(** Descending order of [lockedAt]. *)
Definition newest_first (l : list ResourceLock) : Prop :=
  StronglySorted (fun a b => lockedAt b <= lockedAt a) l.

(** The query [q] asked for page [page]. *)
Definition at_page (q : ListQuery) (page : Z) : ListQuery :=
  mkListQuery (Some page) (query_limit q) (query_lockedBy q)
    (query_lockType q).

(** The documents of pages 1 to [k] of a listing, in order. *)
Fixpoint first_pages (regexp_i : string -> option (string -> bool))
    (now : Date)
    (q : ListQuery) (st : Store) (k : nat) : list ResourceLock :=
  match k with
  | O => []
  | S k' =>
      (first_pages regexp_i now q st k'
       ++ listed (answer (get_resources regexp_i now
                            (at_page q (Z.of_nat k)) st)))%list
  end.

(** A body the unlock schema refuses: the resource name is empty, longer
    than 255 characters or has a character outside the pattern, or the
    owner token is empty or longer than 100 characters. *)
Definition malformed_release (b : UnlockBody) : Prop :=
  ubody_resourceName b = None
  \/ ubody_resourceName b = Some ""
  \/ (exists s, ubody_resourceName b = Some s /\ (255 < String.length s)%nat)
  \/ (exists s c, ubody_resourceName b = Some s /\ occurs c s
                  /\ allowed_char c = false)
  \/ ubody_lockedBy b = None
  \/ ubody_lockedBy b = Some ""
  \/ (exists s, ubody_lockedBy b = Some s /\ (100 < String.length s)%nat).

(** An optional string field the lock schema accepts: absent, or not empty
    and within [limit] characters. *)
Definition optional_text (limit : nat) (v : option string) : Prop :=
  match v with
  | None => True
  | Some s => s <> "" /\ (String.length s <= limit)%nat
  end.

(** A body the lock schema accepts. *)
Definition well_formed_acquire (b : LockBody) : Prop :=
  (exists s, body_resourceName b = Some s /\ s <> ""
             /\ (String.length s <= 255)%nat
             /\ all_chars allowed_char s = true)
  /\ (exists s, body_lockedBy b = Some s /\ s <> ""
                /\ (String.length s <= 100)%nat)
  /\ match body_lockDuration b with
     | None => True
     | Some n => 1 <= n <= 86400
     end
  /\ match body_lockType b with
     | None => True
     | Some t => t = "read" \/ t = "write" \/ t = "exclusive"
     end
  /\ optional_text 255 (body_purpose b)
  /\ optional_text 100 (body_sessionId b).

(** More sample data. *)
Definition sample_store : Store := [lock_of_worker_A; lock_of_worker_C].

Definition release_by_worker_A : UnlockRequest :=
  mkUnlockRequest "db-migration-01" "worker-A".

Definition extend_by_worker_A : ExtendBody :=
  mkExtendBody "worker-A" (Some 60).

(** Everything is deleted while a handler waits. *)
Definition all_gone (st : Store) : Store := [].



Definition one_per_page : ListQuery := mkListQuery None (Some 1) None None.

Definition write_locks : ListQuery := mkListQuery None None None (Some "write").

(** * Properties *)

(** ** Filters and collection primitives *)

Lemma by_resourceName_true name d :
  by_resourceName name d = true <-> resourceName d = name.
Proof. unfold by_resourceName. apply String.eqb_eq. Qed.

Lemma by_resourceName_false name d :
  by_resourceName name d = false <-> resourceName d <> name.
Proof. unfold by_resourceName. apply String.eqb_neq. Qed.

Lemma expiresAt_gt_true now d : expiresAt_gt now d = true <-> active now d.
Proof. unfold expiresAt_gt, active. apply Z.ltb_lt. Qed.

Lemma expiresAt_gt_false now d : expiresAt_gt now d = false <-> expiresAt d <= now.
Proof. unfold expiresAt_gt. rewrite Z.ltb_ge. reflexivity. Qed.

Lemma find_none_all {A} (p : A -> bool) (l : list A) :
  (forall x, In x l -> p x = false) -> List.find p l = None.
Proof.
  induction l as [|a l IH]; intros H; simpl; [reflexivity|].
  rewrite (H a (or_introl eq_refl)). apply IH.
  intros x Hx. apply H. now right.
Qed.

Lemma find_some_exists {A} (p : A -> bool) (l : list A) (x : A) :
  In x l -> p x = true -> exists y, List.find p l = Some y.
Proof.
  intros Hin Hp. destruct (List.find p l) as [y|] eqn:E.
  - now exists y.
  - rewrite (find_none p l E x Hin) in Hp. discriminate.
Qed.

Lemma find_filter_absorb {A} (p q : A -> bool) (l : list A) :
  (forall x, p x = true -> q x = true) ->
  List.find p (filter q l) = List.find p l.
Proof.
  intros Hpq. induction l as [|a l IH]; simpl; [reflexivity|].
  destruct (q a) eqn:Hq; simpl.
  - now rewrite IH.
  - destruct (p a) eqn:Hp; [|exact IH].
    rewrite (Hpq a Hp) in Hq. discriminate.
Qed.

Lemma filter_filter_absorb {A} (p q : A -> bool) (l : list A) :
  (forall x, p x = true -> q x = true) ->
  filter p (filter q l) = filter p l.
Proof.
  intros Hpq. induction l as [|a l IH]; simpl; [reflexivity|].
  destruct (q a) eqn:Hq; simpl.
  - now rewrite IH.
  - destruct (p a) eqn:Hp; [|exact IH].
    rewrite (Hpq a Hp) in Hq. discriminate.
Qed.

Lemma remove_first_subset p st d :
  In d (remove_first p st) -> In d st.
Proof.
  induction st as [|x st IH]; simpl; [tauto|].
  destruct (p x); simpl; [tauto|].
  intros [H|H]; [now left|right; now apply IH].
Qed.

Lemma remove_first_keeps p st d :
  In d st -> p d = false -> In d (remove_first p st).
Proof.
  induction st as [|x st IH]; simpl; [tauto|].
  intros [H|H] Hp.
  - subst x. rewrite Hp. now left.
  - destruct (p x); [exact H|]. right. now apply IH.
Qed.

Lemma unique_names_holder st d d' :
  unique_names st -> In d st -> In d' st ->
  resourceName d = resourceName d' -> d = d'.
Proof.
  unfold unique_names. induction st as [|x st IH]; simpl; [tauto|].
  intros Hnd Hd Hd' Hname. inversion Hnd as [|? ? Hnotin Hnd']; subst.
  destruct Hd as [Hd|Hd], Hd' as [Hd'|Hd'].
  - congruence.
  - subst x. exfalso. apply Hnotin. rewrite Hname. now apply in_map.
  - subst x. exfalso. apply Hnotin. rewrite <- Hname. now apply in_map.
  - now apply IH.
Qed.

Lemma remove_first_unique_gone name st :
  unique_names st ->
  forall d, In d (remove_first (by_resourceName name) st) ->
            resourceName d <> name.
Proof.
  unfold unique_names. induction st as [|x st IH]; simpl; [tauto|].
  intros Hnd d Hd. inversion Hnd as [|? ? Hnotin Hnd']; subst.
  destruct (by_resourceName name x) eqn:E.
  - apply by_resourceName_true in E. intros Hname.
    apply Hnotin. rewrite E, <- Hname. now apply in_map.
  - destruct Hd as [Hd|Hd].
    + subst d. now apply by_resourceName_false.
    + now apply IH.
Qed.

Lemma remove_first_shorter name st d :
  In d st -> resourceName d = name ->
  (List.length (remove_first (by_resourceName name) st) < List.length st)%nat.
Proof.
  induction st as [|x st IH]; simpl; [tauto|].
  intros Hd Hname. destruct (by_resourceName name x) eqn:E.
  - lia.
  - destruct Hd as [Hd|Hd].
    + subst x. apply by_resourceName_false in E. contradiction.
    + simpl. specialize (IH Hd Hname). lia.
Qed.

(** ** The pre-check and the insert of the lock route *)

Lemma getLockInfo_run now name st :
  getLockInfo now name st =
  (inr (List.find (fun d => by_resourceName name d && expiresAt_gt now d) st),
   st, [OpFindOne]).
Proof. reflexivity. Qed.

Lemma getLockInfo_none now name st :
  (forall d, In d st -> resourceName d = name -> expiresAt d <= now) ->
  List.find (fun d => by_resourceName name d && expiresAt_gt now d) st = None.
Proof.
  intros H. apply find_none_all. intros d Hd.
  destruct (by_resourceName name d) eqn:E; [|reflexivity].
  apply by_resourceName_true in E. simpl.
  apply expiresAt_gt_false. now apply H.
Qed.

Lemma getLockInfo_some now name st holder :
  In holder st -> resourceName holder = name -> active now holder ->
  exists e,
    List.find (fun d => by_resourceName name d && expiresAt_gt now d) st = Some e
    /\ In e st /\ resourceName e = name /\ active now e.
Proof.
  intros Hin Hname Hact.
  destruct (find_some_exists
              (fun d => by_resourceName name d && expiresAt_gt now d)
              st holder Hin) as [e He].
  - apply andb_true_intro. split.
    + now apply by_resourceName_true.
    + now apply expiresAt_gt_true.
  - exists e. split; [exact He|].
    apply find_some in He. destruct He as [He1 He2].
    apply andb_prop in He2. destruct He2 as [Hn Ha].
    split; [exact He1|]. split.
    + now apply by_resourceName_true.
    + now apply expiresAt_gt_true.
Qed.

Lemma lock_handler_conflict others now id client req st e :
  List.find (fun d => by_resourceName (req_resourceName req) d
                      && expiresAt_gt now d) st = Some e ->
  lock_handler others now id client req st =
  (inr (already_locked now e), st, [OpFindOne]).
Proof.
  intros H. unfold lock_handler, try_catch, bind.
  rewrite getLockInfo_run, H. reflexivity.
Qed.

Lemma lock_handler_insert others now id client req st :
  List.find (fun d => by_resourceName (req_resourceName req) d
                      && expiresAt_gt now d) st = None ->
  lock_handler others now id client req st =
  let newLock := new_lock now id client req in
  if existsb (duplicate_key newLock) (others st)
  then (inr (mkResponse 409 false
               "Resource is already locked by another process" NoPayload),
        others st, [OpFindOne; OpSave])
  else (inr (mkResponse 201 true "Resource locked successfully"
               (Created newLock (remainingTime now newLock))),
        (others st ++ [newLock])%list, [OpFindOne; OpSave]).
Proof.
  intros H. unfold lock_handler, try_catch, bind.
  rewrite getLockInfo_run, H. unfold interleave, save. cbv zeta.
  destruct (existsb (duplicate_key (new_lock now id client req)) (others st));
    reflexivity.
Qed.

Lemma post_lock_valid others now id client body req st :
  lockRequestSchema body = inr req ->
  post_lock others now id client body st =
  lock_handler others now id client req st.
Proof.
  intros H. unfold post_lock, validateLockRequest. now rewrite H.
Qed.

(** ** What the lock schema lets through *)

Lemma lockRequestSchema_value body req :
  lockRequestSchema body = inr req ->
  body_resourceName body = Some (req_resourceName req)
  /\ joi_string [Min 1; Max 255; Pattern resourceName_pattern]
       (req_resourceName req) = None
  /\ body_lockedBy body = Some (req_lockedBy req)
  /\ joi_string [Min 1; Max 100] (req_lockedBy req) = None
  /\ (forall n, body_lockDuration body = Some n ->
        joi_number [Integer; NMin 1; NMax 86400] n = None)
  /\ req_lockDuration req = Some (default 300 (body_lockDuration body))
  /\ req_lockType req = Some (default "exclusive" (body_lockType body))
  /\ req_purpose req = Some (default "" (body_purpose body))
  /\ req_sessionId req = Some (default "" (body_sessionId body)).
Proof.
  destruct body as [rn lb ld lt pu si].
  unfold lockRequestSchema, and_then, required, optional; simpl.
  destruct rn as [rn|]; [|discriminate].
  destruct (joi_string [Min 1; Max 255; Pattern resourceName_pattern] rn)
    eqn:Hrn; [discriminate|].
  destruct lb as [lb|]; [|discriminate].
  destruct (joi_string [Min 1; Max 100] lb) eqn:Hlb; [discriminate|].
  destruct ld as [ld|];
    [destruct (joi_number [Integer; NMin 1; NMax 86400] ld) eqn:Hld;
       [discriminate|]|];
    (destruct lt as [lt|];
       [destruct (joi_string [Valid ["read"; "write"; "exclusive"]] lt);
          [discriminate|]|]);
    (destruct pu as [pu|];
       [destruct (joi_string [Max 255] pu); [discriminate|]|]);
    (destruct si as [si|];
       [destruct (joi_string [Max 100] si); [discriminate|]|]);
    intros H; injection H as <-; simpl;
    repeat split; try reflexivity; try assumption;
    intros n Hn; try discriminate; injection Hn as <-; assumption.
Qed.

Lemma resourceName_rules_pass s :
  joi_string [Min 1; Max 255; Pattern resourceName_pattern] s = None ->
  s <> "" /\ (String.length s <= 255)%nat /\ all_chars allowed_char s = true.
Proof.
  unfold joi_string; simpl.
  destruct (String.eqb s "") eqn:Hs; [discriminate|].
  destruct (Nat.ltb (String.length s) 1); [discriminate|].
  destruct (Nat.ltb 255 (String.length s)) eqn:Hmax; [discriminate|].
  destruct (resourceName_pattern s) eqn:Hp; [|discriminate].
  intros _. split; [now apply String.eqb_neq|]. split.
  - apply Nat.ltb_ge in Hmax. exact Hmax.
  - unfold resourceName_pattern in Hp. apply andb_prop in Hp. tauto.
Qed.

Lemma lockedBy_rules_pass s :
  joi_string [Min 1; Max 100] s = None ->
  s <> "" /\ (String.length s <= 100)%nat.
Proof.
  unfold joi_string; simpl.
  destruct (String.eqb s "") eqn:Hs; [discriminate|].
  destruct (Nat.ltb (String.length s) 1); [discriminate|].
  destruct (Nat.ltb 100 (String.length s)) eqn:Hmax; [discriminate|].
  intros _. split; [now apply String.eqb_neq|].
  apply Nat.ltb_ge in Hmax. exact Hmax.
Qed.

Lemma lockDuration_rules_pass n :
  joi_number [Integer; NMin 1; NMax 86400] n = None -> 1 <= n <= 86400.
Proof.
  unfold joi_number.
  destruct ((MAX_SAFE_INTEGER <? n) || (n <? - MAX_SAFE_INTEGER));
    [discriminate|]. simpl.
  destruct (n <? 1) eqn:Hlo; [discriminate|].
  destruct (86400 <? n) eqn:Hhi; [discriminate|].
  intros _. apply Z.ltb_ge in Hlo, Hhi. lia.
Qed.

Lemma all_chars_occurs p s c :
  all_chars p s = true -> occurs c s -> p c = true.
Proof.
  induction s as [|c' s IH]; simpl; [tauto|].
  intros H [Hc|Hc]; apply andb_prop in H; destruct H as [H1 H2].
  - now subst c'.
  - now apply IH.
Qed.

(** ** Acquisition *)

(** C1.  When the pre-check of an Acquire on a resource name finds no
    active lease but, by the time of the insert, the collection holds a
    record keyed by that name (a concurrent writer won the race, or an
    expired record lingers), the insert is rejected and the handler answers
    409 Conflict, the status of the pre-check conflict, not a 5xx; nothing
    is inserted.  The route answers the same for every body that validates
    to the request. *)
Theorem lock_insert_rejected_is_conflict
    others now id client req st winner :
  (forall d, In d st -> resourceName d = req_resourceName req ->
             expiresAt d <= now) ->
  In winner (others st) ->
  resourceName winner = req_resourceName req ->
  exists r,
    lock_handler others now id client req st
    = (inr r, others st, [OpFindOne; OpSave])
    /\ status r = 409
    /\ success r = false
    /\ (forall e, status r = status (already_locked now e))
    /\ (forall body, lockRequestSchema body = inr req ->
          post_lock others now id client body st
          = (inr r, others st, [OpFindOne; OpSave])).
Proof.
  intros Hpre Hin Hname.
  assert (Hdup : existsb (duplicate_key (new_lock now id client req))
                   (others st) = true).
  { apply existsb_exists. exists winner. split; [exact Hin|].
    unfold duplicate_key. apply orb_true_intro. right.
    now apply by_resourceName_true. }
  assert (Hrun : lock_handler others now id client req st
                 = (inr (mkResponse 409 false
                           "Resource is already locked by another process"
                           NoPayload),
                    others st, [OpFindOne; OpSave])).
  { rewrite lock_handler_insert by now apply getLockInfo_none.
    cbv zeta. now rewrite Hdup. }
  eexists. split; [exact Hrun|]. repeat split.
  intros body Hvalid. now rewrite (post_lock_valid _ _ _ _ _ _ _ Hvalid).
Qed.

(** C8.  Whatever the class [c1] of an active lease on a resource name and
    whatever the class [c2] an Acquire on that name asks for, the handler
    answers 409 Conflict from the pre-check and leaves the collection as it
    was.  The route answers the same for every body that validates to the
    request. *)
Theorem any_class_blocks_any_class
    (c1 c2 : LeaseClass) others now id client req st holder :
  req_lockType req = Some (class_name c2) ->
  In holder st ->
  resourceName holder = req_resourceName req ->
  lockType holder = class_name c1 ->
  active now holder ->
  exists e,
    lock_handler others now id client req st
    = (inr (already_locked now e), st, [OpFindOne])
    /\ status (already_locked now e) = 409
    /\ In e st
    /\ resourceName e = req_resourceName req
    /\ active now e
    /\ (unique_names st -> e = holder)
    /\ (forall body, lockRequestSchema body = inr req ->
          post_lock others now id client body st
          = (inr (already_locked now e), st, [OpFindOne])).
Proof.
  intros _ Hin Hname _ Hact.
  destruct (getLockInfo_some now _ st holder Hin Hname Hact)
    as [e [Hfind [He [Hen Hea]]]].
  exists e. rewrite (lock_handler_conflict _ _ _ _ _ _ _ Hfind).
  repeat split; try assumption.
  - intros Huniq. apply (unique_names_holder st); try assumption. congruence.
  - intros body Hvalid. rewrite (post_lock_valid _ _ _ _ _ _ _ Hvalid).
    apply (lock_handler_conflict _ _ _ _ _ _ _ Hfind).
Qed.

(** C10.  A valid Acquire gets, for every optional field it omits, the
    default: [lockDuration] 300, [lockType] exclusive, empty [purpose] and
    [sessionId].  The lease it creates expires [lockDuration] seconds after
    the acquisition, so 300 seconds after it when no duration is given. *)
Theorem acquire_defaults others now id client body req st :
  lockRequestSchema body = inr req ->
  (forall d, In d st -> resourceName d = req_resourceName req ->
             expiresAt d <= now) ->
  existsb (duplicate_key (new_lock now id client req)) (others st) = false ->
  let lease := new_lock now id client req in
  post_lock others now id client body st
  = (inr (mkResponse 201 true "Resource locked successfully"
            (Created lease (remainingTime now lease))),
     (others st ++ [lease])%list, [OpFindOne; OpSave])
  /\ lockDuration lease = default 300 (body_lockDuration body)
  /\ lockType lease = default "exclusive" (body_lockType body)
  /\ purpose (metadata lease) = default "" (body_purpose body)
  /\ sessionId (metadata lease) = default "" (body_sessionId body)
  /\ lockedAt lease = now
  /\ expiresAt lease = now + default 300 (body_lockDuration body) * 1000
  /\ (body_lockDuration body = None -> expiresAt lease = now + 300 * 1000).
Proof.
  intros Hvalid Hpre Hfree lease.
  destruct (lockRequestSchema_value body req Hvalid)
    as (_ & _ & _ & _ & _ & Hd & Ht & Hp & Hs).
  split.
  - rewrite (post_lock_valid _ _ _ _ _ _ _ Hvalid).
    rewrite lock_handler_insert by now apply getLockInfo_none.
    cbv zeta. unfold lease. now rewrite Hfree.
  - unfold lease, new_lock; simpl. rewrite Hd, Ht, Hp, Hs; simpl.
    repeat split. intros Hnone. now rewrite Hnone.
Qed.

(** ** Lazy expiry on the read paths *)

Lemma in_firstn {A} n (l : list A) x : In x (firstn n l) -> In x l.
Proof.
  intros H. rewrite <- (firstn_skipn n l). apply in_or_app. now left.
Qed.

Lemma in_skipn {A} n (l : list A) x : In x (skipn n l) -> In x l.
Proof.
  intros H. rewrite <- (firstn_skipn n l). apply in_or_app. now right.
Qed.

Lemma in_insert_by_lockedAt d l x :
  In x (insert_by_lockedAt d l) -> x = d \/ In x l.
Proof.
  induction l as [|y l IH]; simpl.
  - intros [H|[]]. now left.
  - destruct (lockedAt y <=? lockedAt d); simpl.
    + intros [H|[H|H]]; auto.
    + intros [H|H]; auto. destruct (IH H); auto.
Qed.

Lemma in_sort_lockedAt_desc l x : In x (sort_lockedAt_desc l) -> In x l.
Proof.
  induction l as [|d l IH]; simpl; [tauto|].
  intros H. apply in_insert_by_lockedAt in H. destruct H; auto.
Qed.

Lemma list_filter_active regexp_i now q d :
  list_filter regexp_i now q d = true -> expiresAt_gt now d = true.
Proof.
  unfold list_filter. intros H.
  apply andb_prop in H. destruct H as [H _].
  apply andb_prop in H. tauto.
Qed.

Lemma status_filter_active now name d :
  by_resourceName name d && expiresAt_gt now d = true ->
  expiresAt_gt now d = true.
Proof. intros H. apply andb_prop in H. tauto. Qed.

Lemma get_resources_run regexp_i now q st :
  get_resources regexp_i now q st =
  match owner_filter regexp_i q with
  | inl error =>
      (inr (server_error "Error fetching resources" error), st, [])
  | inr _ =>
      let page := default 1 (query_page q) in
      let limit := default 20 (query_limit q) in
      let matching := filter (list_filter regexp_i now q) st in
      let skip := (page - 1) * limit in
      if skip <? 0
      then (inr (server_error "Error fetching resources" skip_error), st,
            [OpFind])
      else
        let rest := skipn (Z.to_nat skip) (sort_lockedAt_desc matching) in
        let locks :=
          if limit * 1 =? 0 then rest
          else firstn (Z.to_nat (Z.abs (limit * 1))) rest in
        let total := Z.of_nat (List.length matching) in
        (inr (json true ""
                (Listing (map (summary now) locks)
                   (mkPagination page (ceil_div total limit) total
                      (page * limit <? total) (1 <? page)))),
         st, [OpFind; OpCountDocuments])
  end.
Proof.
  unfold get_resources, try_catch, bind, find_page, countDocuments.
  cbv zeta.
  destruct (owner_filter regexp_i q) as [error|owner]; [reflexivity|].
  simpl.
  destruct ((default 1 (query_page q) - 1) * default 20 (query_limit q) <? 0);
    reflexivity.
Qed.

Lemma listed_in_matching regexp_i now q st d :
  In d (listed (answer (get_resources regexp_i now q st))) ->
  In d (filter (list_filter regexp_i now q) st).
Proof.
  rewrite get_resources_run. cbv zeta.
  destruct (owner_filter regexp_i q) as [error|owner]; [simpl; tauto|].
  destruct ((default 1 (query_page q) - 1) * default 20 (query_limit q) <? 0);
    simpl; [tauto|].
  rewrite map_map. simpl. rewrite map_id. intros H.
  apply in_sort_lockedAt_desc.
  apply (in_skipn (Z.to_nat ((default 1 (query_page q) - 1)
                             * default 20 (query_limit q)))).
  destruct (default 20 (query_limit q) * 1 =? 0); [exact H|].
  now apply in_firstn in H.
Qed.

(** C2.  Every read path answers as if the records with [expiresAt <= now]
    were not in the collection, whether or not the clean-up has removed
    them: the status read, the listing and the acquisition pre-check give
    the same answer on the collection and on the collection without those
    records.  In particular the status of a name whose records have all
    expired is Available, an expired record is never listed nor counted,
    and the pre-check finds nothing. *)
Theorem expired_leases_are_absent_on_reads regexp_i now name q st :
  answer (get_resource now name st) = answer (get_resource now name (live now st))
  /\ answer (get_resources regexp_i now q st)
     = answer (get_resources regexp_i now q (live now st))
  /\ answer (getLockInfo now name st)
     = answer (getLockInfo now name (live now st))
  /\ ((forall d, In d st -> resourceName d = name -> expiresAt d <= now) ->
      get_resource now name st
      = (inr (json true "" (Available name)), st, [OpFindOne])
      /\ answer (getLockInfo now name st) = inr None)
  /\ (forall d, In d st -> expiresAt d <= now ->
        ~ In d (listed (answer (get_resources regexp_i now q st))))
  /\ (forall total,
        listed_total (answer (get_resources regexp_i now q st)) = Some total ->
        total = Z.of_nat (List.length
                            (filter (list_filter regexp_i now q) (live now st)))).
Proof.
  assert (Hfind : List.find (fun d => by_resourceName name d && expiresAt_gt now d)
                    (live now st)
                  = List.find (fun d => by_resourceName name d
                                        && expiresAt_gt now d) st).
  { apply find_filter_absorb. intros d. apply status_filter_active. }
  assert (Hfilter : filter (list_filter regexp_i now q) (live now st)
                    = filter (list_filter regexp_i now q) st).
  { apply filter_filter_absorb. intros d. apply list_filter_active. }
  repeat split.
  - unfold get_resource, try_catch, bind. rewrite !getLockInfo_run, Hfind.
    destruct (List.find _ st); reflexivity.
  - rewrite !get_resources_run. cbv zeta. rewrite Hfilter.
    destruct (owner_filter regexp_i q) as [error|owner]; [reflexivity|].
    destruct ((default 1 (query_page q) - 1) * default 20 (query_limit q) <? 0);
      reflexivity.
  - rewrite !getLockInfo_run. unfold answer; simpl. now rewrite Hfind.
  - unfold get_resource, try_catch, bind.
    rewrite getLockInfo_run, getLockInfo_none by assumption. reflexivity.
  - rewrite getLockInfo_run, getLockInfo_none by assumption. reflexivity.
  - intros d _ Hexp Hlisted. apply listed_in_matching in Hlisted.
    apply filter_In in Hlisted. destruct Hlisted as [_ Hm].
    apply list_filter_active in Hm. apply expiresAt_gt_true in Hm.
    unfold active in Hm. lia.
  - intros total. rewrite Hfilter, get_resources_run. cbv zeta.
    destruct (owner_filter regexp_i q) as [error|owner]; [discriminate|].
    destruct ((default 1 (query_page q) - 1) * default 20 (query_limit q) <? 0);
      simpl; [discriminate|].
    intros H. now injection H as <-.
Qed.

(** ** Release *)

Lemma post_unlock_valid others now body req st :
  unlockRequestSchema body = inr req ->
  post_unlock others now body st = unlock_handler others now req st.
Proof.
  intros H. unfold post_unlock, validateUnlockRequest. now rewrite H.
Qed.

Lemma unlock_handler_not_found others now req st :
  (forall d, In d st -> resourceName d = ureq_resourceName req ->
             active now d -> lockedBy d <> ureq_lockedBy req) ->
  unlock_handler others now req st =
  (inr (mkResponse 404 false
          "Lock not found or you are not authorized to unlock this resource"
          NoPayload),
   st, [OpFindOne]).
Proof.
  intros H. unfold unlock_handler, try_catch, bind, findOne. cbv zeta.
  rewrite find_none_all; [reflexivity|].
  intros d Hd. unfold owned_active.
  destruct (by_resourceName (ureq_resourceName req) d) eqn:En; [|reflexivity].
  destruct (expiresAt_gt now d) eqn:Ea; [|apply andb_false_r].
  apply by_resourceName_true in En. apply expiresAt_gt_true in Ea.
  simpl. rewrite andb_true_r. apply String.eqb_neq. now apply H.
Qed.

(** C3.  A Release of a resource name by [ownerA] while the active lease
    on that name is held by another owner answers 404 NotFound after one
    read, and the collection is left as it was: the holder's lease is still
    stored, unmodified and active.  The route answers the same for every
    body that validates to the request. *)
Theorem unlock_by_other_owner_not_found others now req st holder :
  unique_names st ->
  In holder st ->
  resourceName holder = ureq_resourceName req ->
  active now holder ->
  lockedBy holder <> ureq_lockedBy req ->
  exists r,
    unlock_handler others now req st = (inr r, st, [OpFindOne])
    /\ status r = 404
    /\ success r = false
    /\ In holder (store_after (unlock_handler others now req st))
    /\ active now holder
    /\ (forall body, unlockRequestSchema body = inr req ->
          post_unlock others now body st = (inr r, st, [OpFindOne])).
Proof.
  intros Huniq Hin Hname Hact Hother.
  assert (Hrun : unlock_handler others now req st
                 = (inr (mkResponse 404 false
                           "Lock not found or you are not authorized to unlock this resource"
                           NoPayload),
                    st, [OpFindOne])).
  { apply unlock_handler_not_found. intros d Hd Hdn _.
    assert (d = holder) as ->; [|exact Hother].
    apply (unique_names_holder st); try assumption. congruence. }
  eexists. split; [exact Hrun|]. rewrite Hrun.
  repeat split; try assumption.
  intros body Hvalid. now rewrite (post_unlock_valid _ _ _ _ _ Hvalid).
Qed.

(** ** Administrative release *)

Lemma strict_neq_true a b : strict_neq a b = true <-> a <> b.
Proof.
  destruct a as [x|], b as [y|]; simpl; split; try congruence;
    try (intros _; discriminate).
  - intros H E. injection E as ->. rewrite String.eqb_refl in H. discriminate.
  - intros H. destruct (String.eqb x y) eqn:E; [|reflexivity].
    apply String.eqb_eq in E. congruence.
Qed.

Lemma strict_neq_false a b : strict_neq a b = false <-> a = b.
Proof.
  split.
  - intros H. destruct a as [x|], b as [y|]; simpl in H; try discriminate;
      [|reflexivity].
    destruct (String.eqb x y) eqn:E; [|discriminate].
    apply String.eqb_eq in E. now subst.
  - intros ->. destruct b as [y|]; simpl; [|reflexivity].
    now rewrite String.eqb_refl.
Qed.

Lemma delete_force_unlock_authorized ADMIN_KEY now name st :
  delete_force_unlock ADMIN_KEY now name ADMIN_KEY st =
  (inr (if existsb (by_resourceName name) st
        then json true "Resource force unlocked successfully"
               (ForceUnlocked name now)
        else mkResponse 404 false "Resource lock not found" NoPayload),
   remove_first (by_resourceName name) st, [OpDeleteOne]).
Proof.
  unfold delete_force_unlock, try_catch, bind, deleteOne.
  rewrite (proj2 (strict_neq_false ADMIN_KEY ADMIN_KEY) eq_refl).
  destruct (existsb (by_resourceName name) st); reflexivity.
Qed.

(** C5.  A ForceRelease whose credential differs from the process-wide
    secret answers 403 and makes no round trip to the store.  With the
    matching credential it makes one delete keyed by the resource name
    alone: a record of that name is removed and the answer is 200 whoever
    owns it and whether or not it has expired, no record of that name is
    left in a collection that respects the unique index, and the records
    of other names stay. *)
Theorem force_unlock_checks_key_then_deletes ADMIN_KEY now name adminKey st :
  (adminKey <> ADMIN_KEY ->
     delete_force_unlock ADMIN_KEY now name adminKey st
     = (inr (mkResponse 403 false "Unauthorized: Invalid admin key" NoPayload),
        st, []))
  /\ (adminKey = ADMIN_KEY ->
      let r := delete_force_unlock ADMIN_KEY now name adminKey st in
      store_after r = remove_first (by_resourceName name) st
      /\ round_trips r = [OpDeleteOne]
      /\ (forall d, In d st -> resourceName d = name ->
            answer r = inr (json true "Resource force unlocked successfully"
                              (ForceUnlocked name now))
            /\ (List.length (store_after r) < List.length st)%nat)
      /\ (unique_names st ->
          forall d, In d (store_after r) -> resourceName d <> name)
      /\ (forall d, In d st -> resourceName d <> name ->
            In d (store_after r))).
Proof.
  split.
  - intros Hneq. apply strict_neq_true in Hneq.
    unfold delete_force_unlock, try_catch. now rewrite Hneq.
  - intros -> r. unfold r. rewrite delete_force_unlock_authorized.
    unfold store_after, round_trips, answer; simpl.
    repeat split.
    + assert (He : existsb (by_resourceName name) st = true).
      { apply existsb_exists. exists d. split; [assumption|].
        now apply by_resourceName_true. }
      now rewrite He.
    + now apply (remove_first_shorter name st d).
    + intros Huniq. now apply remove_first_unique_gone.
    + intros d Hd Hname. apply remove_first_keeps; [assumption|].
      now apply by_resourceName_false.
Qed.

(** ** The clean-up timer *)

Lemma cleanup_run now st :
  cleanup now st =
  let deletedCount := Z.of_nat (List.length (filter (expiresAt_lt now) st)) in
  (inr (deletedCount,
        if 0 <? deletedCount then [CleanedUp deletedCount] else []),
   filter (fun d => negb (expiresAt_lt now d)) st, [OpDeleteMany]).
Proof. reflexivity. Qed.

Lemma filter_none {A} (p : A -> bool) (l : list A) :
  (forall x, In x l -> p x = false) -> filter p l = [].
Proof.
  induction l as [|a l IH]; intros H; simpl; [reflexivity|].
  rewrite (H a (or_introl eq_refl)). apply IH.
  intros x Hx. apply H. now right.
Qed.

Lemma filter_all {A} (p : A -> bool) (l : list A) :
  (forall x, In x l -> p x = true) -> filter p l = l.
Proof.
  induction l as [|a l IH]; intros H; simpl; [reflexivity|].
  rewrite (H a (or_introl eq_refl)). f_equal. apply IH.
  intros x Hx. apply H. now right.
Qed.

(** C9.  One run of the clean-up deletes exactly the records whose
    [expiresAt] is earlier than the time of the run and reports their
    number.  Run again at the same time it deletes nothing.  Run again at
    a later time, when no remaining record has crossed its [expiresAt]
    between the two runs, it deletes nothing, reports zero and logs
    nothing. *)
Theorem cleanup_twice_deletes_nothing now1 now2 st :
  let first := cleanup now1 st in
  (forall d, In d (store_after first) <-> In d st /\ now1 <= expiresAt d)
  /\ (exists log,
        answer first
        = inr (Z.of_nat (List.length (filter (expiresAt_lt now1) st)), log))
  /\ cleanup now1 (store_after first)
     = (inr (0, []), store_after first, [OpDeleteMany])
  /\ ((forall d, In d (store_after first) ->
                 ~ (now1 <= expiresAt d < now2)) ->
      cleanup now2 (store_after first)
      = (inr (0, []), store_after first, [OpDeleteMany])).
Proof.
  intros first.
  assert (Hkept : forall d, In d (store_after first) <->
                            In d st /\ now1 <= expiresAt d).
  { intros d. unfold first. rewrite cleanup_run. unfold store_after; simpl.
    rewrite filter_In. unfold expiresAt_lt.
    rewrite negb_true_iff, Z.ltb_ge. reflexivity. }
  assert (Hquiet : forall t,
            (forall d, In d (store_after first) ->
                       ~ (now1 <= expiresAt d < t)) ->
            cleanup t (store_after first)
            = (inr (0, []), store_after first, [OpDeleteMany])).
  { intros t Hq. rewrite cleanup_run. cbv zeta.
    assert (Hnone : forall d, In d (store_after first) ->
                              expiresAt_lt t d = false).
    { intros d Hd. unfold expiresAt_lt. apply Z.ltb_ge.
      pose proof (Hq d Hd). apply Hkept in Hd. lia. }
    rewrite (filter_none _ _ Hnone). simpl.
    rewrite filter_all; [reflexivity|].
    intros d Hd. now rewrite (Hnone d Hd). }
  split; [exact Hkept|]. split; [|split].
  - unfold first. rewrite cleanup_run. eexists. reflexivity.
  - apply Hquiet. intros d _. lia.
  - exact (Hquiet now2).
Qed.

(** ** Validation of Acquire *)

Lemma all_chars_false_occurs p s :
  all_chars p s = false -> exists c, occurs c s /\ p c = false.
Proof.
  induction s as [|c s IH]; simpl; [discriminate|].
  destruct (p c) eqn:E; simpl.
  - intros H. destruct (IH H) as (c' & Hocc & Hc'). exists c'. tauto.
  - intros _. exists c. tauto.
Qed.

Lemma name_dichotomy v :
  well_formed_name v \/ exists e, name_failure v e.
Proof.
  destruct v as [s|]; [|right; eexists; now apply name_required].
  destruct (String.eqb_spec s "") as [->|Hne].
  { right. eexists. now apply name_empty. }
  destruct (Nat.ltb_spec 255 (String.length s)) as [Hlong|Hlen].
  { right. eexists. now apply (name_too_long _ s). }
  destruct (all_chars allowed_char s) eqn:Hchars.
  - left. exists s. tauto.
  - right. destruct (all_chars_false_occurs _ _ Hchars) as (c & Hocc & Hc).
    eexists. now apply (name_off_pattern _ s c).
Qed.

Lemma owner_dichotomy v :
  well_formed_owner v \/ exists e, owner_failure v e.
Proof.
  destruct v as [s|]; [|right; eexists; now apply owner_required].
  destruct (String.eqb_spec s "") as [->|Hne].
  { right. eexists. now apply owner_empty. }
  destruct (Nat.ltb_spec 100 (String.length s)) as [Hlong|Hlen].
  - right. eexists. now apply (owner_too_long _ s).
  - left. exists s. tauto.
Qed.

Lemma duration_out_of_range n :
  n < 1 \/ 86400 < n -> exists e, duration_failure (Some n) e.
Proof.
  intros Hrange.
  destruct (Z_lt_le_dec MAX_SAFE_INTEGER n) as [Hbig|Hbig].
  { eexists. apply (duration_unsafe _ n); [reflexivity|now left]. }
  destruct (Z_lt_le_dec n (- MAX_SAFE_INTEGER)) as [Hsmall|Hsmall].
  { eexists. apply (duration_unsafe _ n); [reflexivity|now right]. }
  destruct Hrange as [Hlow|Hhigh].
  - eexists. apply (duration_too_short _ n); [reflexivity|lia].
  - eexists. apply (duration_too_long _ n); [reflexivity|lia].
Qed.

Lemma nonempty_length s : s <> "" -> (1 <= String.length s)%nat.
Proof. destruct s; [contradiction|simpl; lia]. Qed.

Lemma long_nonempty n s : (n < String.length s)%nat -> s <> "".
Proof. intros H ->. simpl in H. lia. Qed.

Lemma name_failure_reported v e :
  name_failure v e ->
  required FResourceName
    (joi_string [Min 1; Max 255; Pattern resourceName_pattern]) v
  = inl (mkDetail FResourceName e).
Proof.
  intros [->| ->|s -> Hlong|s c -> Hne Hlen Hocc Hc]; try reflexivity;
    unfold required, joi_string; simpl.
  - pose proof (long_nonempty _ _ Hlong) as Hne.
    rewrite (proj2 (String.eqb_neq s "") Hne).
    rewrite (proj2 (Nat.ltb_ge _ _) (nonempty_length s Hne)).
    now rewrite (proj2 (Nat.ltb_lt _ _) Hlong).
  - rewrite (proj2 (String.eqb_neq s "") Hne).
    rewrite (proj2 (Nat.ltb_ge _ _) (nonempty_length s Hne)).
    rewrite (proj2 (Nat.ltb_ge _ _) Hlen).
    assert (Hpat : resourceName_pattern s = false).
    { unfold resourceName_pattern.
      destruct (all_chars allowed_char s) eqn:Hall; [|apply andb_false_r].
      rewrite (all_chars_occurs _ _ _ Hall Hocc) in Hc. discriminate. }
    now rewrite Hpat.
Qed.

Lemma owner_failure_reported v e :
  owner_failure v e ->
  required FLockedBy (joi_string [Min 1; Max 100]) v
  = inl (mkDetail FLockedBy e).
Proof.
  intros [->| ->|s -> Hlong]; try reflexivity.
  unfold required, joi_string; simpl.
  pose proof (long_nonempty _ _ Hlong) as Hne.
  rewrite (proj2 (String.eqb_neq s "") Hne).
  rewrite (proj2 (Nat.ltb_ge _ _) (nonempty_length s Hne)).
  now rewrite (proj2 (Nat.ltb_lt _ _) Hlong).
Qed.

Lemma duration_failure_reported v e :
  duration_failure v e ->
  optional FLockDuration (joi_number [Integer; NMin 1; NMax 86400]) 300 v
  = inl (mkDetail FLockDuration e).
Proof.
  intros [n -> Hunsafe|n -> Hlow|n -> Hhigh]; unfold optional, joi_number.
  - assert (((MAX_SAFE_INTEGER <? n) || (n <? - MAX_SAFE_INTEGER)) = true)
      as ->; [|reflexivity].
    apply orb_true_iff. rewrite !Z.ltb_lt. exact Hunsafe.
  - assert ((MAX_SAFE_INTEGER <? n) = false) as ->
      by (apply Z.ltb_ge; unfold MAX_SAFE_INTEGER in *; lia).
    assert ((n <? - MAX_SAFE_INTEGER) = false) as ->
      by (apply Z.ltb_ge; lia).
    simpl. now rewrite (proj2 (Z.ltb_lt n 1)) by lia.
  - assert ((MAX_SAFE_INTEGER <? n) = false) as ->
      by (apply Z.ltb_ge; lia).
    assert ((n <? - MAX_SAFE_INTEGER) = false) as ->
      by (apply Z.ltb_ge; unfold MAX_SAFE_INTEGER in *; lia).
    simpl. rewrite (proj2 (Z.ltb_ge n 1)) by lia.
    now rewrite (proj2 (Z.ltb_lt 86400 n)) by lia.
Qed.

Lemma well_formed_name_passes v :
  well_formed_name v ->
  exists s, v = Some s
    /\ required FResourceName
         (joi_string [Min 1; Max 255; Pattern resourceName_pattern]) v
       = inr s.
Proof.
  intros (s & -> & Hne & Hlen & Hchars). exists s. split; [reflexivity|].
  unfold required, joi_string; simpl.
  rewrite (proj2 (String.eqb_neq s "") Hne).
  rewrite (proj2 (Nat.ltb_ge _ _) (nonempty_length s Hne)).
  rewrite (proj2 (Nat.ltb_ge _ _) Hlen).
  unfold resourceName_pattern.
  now rewrite (proj2 (String.eqb_neq s "") Hne), Hchars.
Qed.

Lemma well_formed_owner_passes v :
  well_formed_owner v ->
  exists s, v = Some s
    /\ required FLockedBy (joi_string [Min 1; Max 100]) v = inr s.
Proof.
  intros (s & -> & Hne & Hlen). exists s. split; [reflexivity|].
  unfold required, joi_string; simpl.
  rewrite (proj2 (String.eqb_neq s "") Hne).
  rewrite (proj2 (Nat.ltb_ge _ _) (nonempty_length s Hne)).
  now rewrite (proj2 (Nat.ltb_ge _ _) Hlen).
Qed.

Lemma acquire_failure_reported b d :
  acquire_failure b d -> lockRequestSchema b = inl d.
Proof.
  intros [e Hname|e Hname Howner|e Hname Howner Hduration];
    unfold lockRequestSchema.
  - now rewrite (name_failure_reported _ _ Hname).
  - destruct (well_formed_name_passes _ Hname) as (s & _ & ->). simpl.
    now rewrite (owner_failure_reported _ _ Howner).
  - destruct (well_formed_name_passes _ Hname) as (s & _ & ->). simpl.
    destruct (well_formed_owner_passes _ Howner) as (o & _ & ->). simpl.
    now rewrite (duration_failure_reported _ _ Hduration).
Qed.

Lemma malformed_acquire_fails b :
  malformed_acquire b -> exists d, acquire_failure b d.
Proof.
  intros Hbad.
  destruct (name_dichotomy (body_resourceName b)) as [Hname|[e He]];
    [|exists (mkDetail FResourceName e); now apply acquire_fails_on_name].
  destruct (owner_dichotomy (body_lockedBy b)) as [Howner|[e He]];
    [|exists (mkDetail FLockedBy e); now apply acquire_fails_on_owner].
  pose proof Hname as (s & Hs & Hne & Hlen & Hchars).
  pose proof Howner as (o & Ho & Hone & _).
  destruct Hbad as [H|[H|[H|[H|[H|[H|H]]]]]]; try congruence.
  - destruct H as (s' & Hs' & Hlong).
    assert (s' = s) by congruence. subst s'. lia.
  - destruct H as (s' & c & Hs' & Hocc & Hc).
    assert (s' = s) by congruence. subst s'.
    rewrite (all_chars_occurs _ _ _ Hchars Hocc) in Hc. discriminate.
  - destruct H as (n & Hn & Hrange).
    destruct (duration_out_of_range n Hrange) as [e He].
    exists (mkDetail FLockDuration e). rewrite <- Hn in He.
    now apply acquire_fails_on_duration.
Qed.

(** C6.  An Acquire whose resource name is empty, too long or has a
    character outside the pattern, whose duration is outside [1, 86400] or
    whose owner token is empty is answered 400 by the middleware, and the
    one error it carries names the first key in schema order whose value
    breaks a rule (resource name, then owner, then duration) and the first
    rule that value breaks; no other detail fits.  The handler does not
    run, so the store is not touched and no lease is created. *)
Theorem malformed_acquire_is_rejected others now id client body st :
  malformed_acquire body ->
  exists detail,
    post_lock others now id client body st
    = (inr (mkResponse 400 false "Validation error"
              (ValidationErrors [detail])),
       st, [])
    /\ acquire_failure body detail
    /\ (forall other, acquire_failure body other -> other = detail).
Proof.
  intros Hbad.
  destruct (malformed_acquire_fails body Hbad) as [detail Hfails].
  pose proof (acquire_failure_reported body detail Hfails) as Hschema.
  exists detail. split; [|split].
  - unfold post_lock, validateLockRequest. now rewrite Hschema.
  - exact Hfails.
  - intros other Hother.
    pose proof (acquire_failure_reported body other Hother) as Hschema'.
    congruence.
Qed.

(** ** Extension *)

Lemma put_extend_found others now name body st lock :
  List.find (owned_active now name (ebody_lockedBy body)) st = Some lock ->
  put_extend others now name body st =
  let additionalSeconds := default 300 (ebody_additionalSeconds body) in
  let extended :=
    set_expiresAt lock (expiresAt lock + additionalSeconds * 1000) in
  (inr (json true "Lock extended successfully"
          (Extended (resourceName extended) (expiresAt extended)
             (remainingTime now extended) additionalSeconds)),
   map (fun d => if by_id (_id extended) d then extended else d) (others st),
   [OpFindOne; OpSave]).
Proof.
  intros H. unfold put_extend, try_catch, bind, findOne. cbv zeta.
  rewrite H. reflexivity.
Qed.

(** An extension by a non-negative number of seconds does not move the
    expiry back. *)
Lemma extendLock_nonnegative lock additionalSeconds st extended st' log :
  0 <= additionalSeconds ->
  extendLock lock additionalSeconds st = (inr extended, st', log) ->
  expiresAt lock <= expiresAt extended.
Proof.
  intros Hpos H. unfold extendLock, bind, save_modified, ret in H.
  injection H as <- _ _. simpl. lia.
Qed.

(** C4.  The extend route hands [additionalSeconds] to [extendLock]
    unchecked.  worker-A holds a lease that expires at 300000; an Extend by
    -60 seconds at time 1000 succeeds with 200 and moves the expiry back to
    240000. *)
Theorem extend_negative_seconds_shortens :
  put_extend no_others 1000 "db-migration-01"
    (mkExtendBody "worker-A" (Some (-60))) [lock_of_worker_A]
  = (inr (json true "Lock extended successfully"
            (Extended "db-migration-01" 240000 239 (-60))),
     [set_expiresAt lock_of_worker_A 240000], [OpFindOne; OpSave])
  /\ expiresAt lock_of_worker_A = 300000
  /\ expiresAt (set_expiresAt lock_of_worker_A 240000)
     < expiresAt lock_of_worker_A.
Proof.
  split; [reflexivity|]. split; [reflexivity|]. simpl. lia.
Qed.

(** ** Force-unlock of an expired lease *)

Lemma get_resource_available now name st :
  (forall d, In d st -> resourceName d = name -> expiresAt d <= now) ->
  get_resource now name st
  = (inr (json true "" (Available name)), st, [OpFindOne]).
Proof.
  intros H. unfold get_resource, try_catch, bind.
  rewrite getLockInfo_run, getLockInfo_none by assumption. reflexivity.
Qed.

Lemma one_second_request_valid name owner :
  joi_string [Min 1; Max 255; Pattern resourceName_pattern] name = None ->
  joi_string [Min 1; Max 100] owner = None ->
  lockRequestSchema (mkLockBody (Some name) (Some owner) (Some 1) None None None)
  = inr (mkLockRequest name owner (Some 1) (Some "exclusive") (Some "")
           (Some "")).
Proof.
  intros Hn Ho. unfold lockRequestSchema, and_then, required, optional; simpl.
  rewrite Hn, Ho. reflexivity.
Qed.

Lemma fresh_key_not_duplicate doc st :
  (forall d, In d st -> resourceName d <> resourceName doc /\ _id d <> _id doc) ->
  existsb (duplicate_key doc) st = false.
Proof.
  intros H. induction st as [|x st IH]; simpl; [reflexivity|].
  destruct (H x (or_introl eq_refl)) as [Hn Hi].
  unfold duplicate_key at 1.
  rewrite (proj2 (by_resourceName_false _ _) Hn).
  unfold by_id. rewrite (proj2 (Nat.eqb_neq _ _) Hi). simpl.
  apply IH. intros d Hd. apply H. now right.
Qed.

Lemma no_record_not_found name st :
  (forall d, In d st -> resourceName d <> name) ->
  existsb (by_resourceName name) st = false.
Proof.
  intros H. induction st as [|x st IH]; simpl; [reflexivity|].
  rewrite (proj2 (by_resourceName_false _ _) (H x (or_introl eq_refl))).
  apply IH. intros d Hd. apply H. now right.
Qed.

Lemma remove_first_absent p st :
  existsb p st = false -> remove_first p st = st.
Proof.
  induction st as [|d st IH]; simpl; [reflexivity|].
  destruct (p d); simpl; [discriminate|].
  intros H. now rewrite IH.
Qed.

Lemma remove_first_only_last name st doc :
  (forall d, In d st -> resourceName d <> name) ->
  resourceName doc = name ->
  remove_first (by_resourceName name) (st ++ [doc])%list = st.
Proof.
  intros Hst Hdoc. induction st as [|x st IH]; simpl.
  - now rewrite (proj2 (by_resourceName_true name doc) Hdoc).
  - rewrite (proj2 (by_resourceName_false _ _) (Hst x (or_introl eq_refl))).
    f_equal. apply IH. intros d Hd. apply Hst. now right.
Qed.

(** The two requests of the scenario when the expired record is still
    stored: Available, then 200 and the record is gone. *)
Lemma expired_record_force_unlocked key now name lease st :
  (forall d, In d st -> resourceName d <> name) ->
  resourceName lease = name ->
  expiresAt lease <= now ->
  get_resource now name (st ++ [lease])%list
  = (inr (json true "" (Available name)), (st ++ [lease])%list, [OpFindOne])
  /\ delete_force_unlock key now name key (st ++ [lease])%list
     = (inr (json true "Resource force unlocked successfully"
               (ForceUnlocked name now)),
        st, [OpDeleteOne]).
Proof.
  intros Hst Hname Hexp. split.
  - apply get_resource_available. intros d Hd Hdn.
    apply in_app_or in Hd. destruct Hd as [Hd|[Hd|[]]].
    + now destruct (Hst d Hd).
    + now subst d.
  - rewrite delete_force_unlock_authorized.
    assert (He : existsb (by_resourceName name) (st ++ [lease]) = true).
    { apply existsb_exists. exists lease. split.
      - apply in_or_app. right. now left.
      - now apply by_resourceName_true. }
    now rewrite He, (remove_first_only_last name st lease Hst Hname).
Qed.

(** The two requests of the scenario when no record of the name is
    stored: Available, then 404 and nothing changes. *)
Lemma absent_record_force_unlocked key now name st :
  (forall d, In d st -> resourceName d <> name) ->
  get_resource now name st
  = (inr (json true "" (Available name)), st, [OpFindOne])
  /\ delete_force_unlock key now name key st
     = (inr (mkResponse 404 false "Resource lock not found" NoPayload),
        st, [OpDeleteOne]).
Proof.
  intros Hst. split.
  - apply get_resource_available. intros d Hd Hdn. now destruct (Hst d Hd).
  - rewrite delete_force_unlock_authorized.
    pose proof (no_record_not_found name st Hst) as Hnone.
    now rewrite Hnone, (remove_first_absent _ _ Hnone).
Qed.

(** C7, as the code has it.  A lease acquired for one second is, two
    seconds later, Available to the status read.  A ForceRelease with the
    right credential at that time answers 200 and deletes the expired
    record whenever the record is still stored: when no clean-up tick ran
    in between, or when the tick ran at or before the expiry.  It answers
    404 and deletes nothing only when a tick after the expiry has already
    removed the record.  In each case the records the scenario started
    from are left as the tick, if any, left them. *)
Theorem expired_force_unlock_depends_on_cleanup
    key t0 id client name owner st0 :
  joi_string [Min 1; Max 255; Pattern resourceName_pattern] name = None ->
  joi_string [Min 1; Max 100] owner = None ->
  (forall d, In d st0 -> resourceName d <> name /\ _id d <> id) ->
  let lease :=
    new_lock t0 id client
      (mkLockRequest name owner (Some 1) (Some "exclusive") (Some "")
         (Some "")) in
  let created :=
    inr (mkResponse 201 true "Resource locked successfully"
           (Created lease (remainingTime t0 lease))) in
  let available := inr (json true "" (Available name)) in
  let released :=
    inr (json true "Resource force unlocked successfully"
           (ForceUnlocked name (t0 + 2000))) in
  let not_found :=
    inr (mkResponse 404 false "Resource lock not found" NoPayload) in
  let kept t := filter (fun d => negb (expiresAt_lt t d)) st0 in
  expiresAt lease = t0 + 1000
  /\ expired_force_unlock None key t0 id client name owner st0
     = mkScenarioRun created available released (st0 ++ [lease])%list st0
  /\ (forall t, t <= t0 + 1000 ->
        expired_force_unlock (Some t) key t0 id client name owner st0
        = mkScenarioRun created available released
            (kept t ++ [lease])%list (kept t))
  /\ (forall t, t0 + 1000 < t ->
        expired_force_unlock (Some t) key t0 id client name owner st0
        = mkScenarioRun created available not_found (kept t) (kept t)).
Proof.
  intros Hname Howner Hfresh lease created available released not_found kept.
  assert (Hexp : expiresAt lease = t0 + 1000) by (simpl; lia).
  assert (Hacq : post_lock no_others t0 id client
                   (mkLockBody (Some name) (Some owner) (Some 1) None None None)
                   st0
                 = (created, (st0 ++ [lease])%list, [OpFindOne; OpSave])).
  { rewrite (post_lock_valid _ _ _ _ _ _ _
               (one_second_request_valid name owner Hname Howner)).
    rewrite lock_handler_insert.
    - cbv zeta. unfold no_others. rewrite fresh_key_not_duplicate; [reflexivity|].
      intros d Hd. simpl. now apply Hfresh.
    - apply getLockInfo_none. simpl. intros d Hd Hdn.
      destruct (Hfresh d Hd) as [Hne _]. contradiction. }
  assert (Hst0 : forall d, In d st0 -> resourceName d <> name).
  { intros d Hd. now destruct (Hfresh d Hd). }
  assert (Hkept : forall t d, In d (kept t) -> resourceName d <> name).
  { intros t d Hd. apply filter_In in Hd. now apply Hst0. }
  assert (Hsweep : forall t,
            snd (fst (cleanup t (st0 ++ [lease])%list))
            = if expiresAt_lt t lease then kept t
              else (kept t ++ [lease])%list).
  { intros t. rewrite cleanup_run. cbn [fst snd].
    rewrite filter_app. cbn [filter].
    destruct (expiresAt_lt t lease); cbn [negb]; [apply app_nil_r|reflexivity]. }
  split; [exact Hexp|]. split; [|split].
  - destruct (expired_record_force_unlocked key (t0 + 2000) name lease st0
                Hst0 eq_refl ltac:(lia)) as [Hread Hforce].
    unfold expired_force_unlock. cbv zeta.
    rewrite Hacq. unfold store_after, answer. cbn [fst snd].
    rewrite Hread. cbn [fst snd]. rewrite Hforce. reflexivity.
  - intros t Ht.
    destruct (expired_record_force_unlocked key (t0 + 2000) name lease (kept t)
                (Hkept t) eq_refl ltac:(lia)) as [Hread Hforce].
    assert (Hlt : expiresAt_lt t lease = false).
    { unfold expiresAt_lt. apply Z.ltb_ge. lia. }
    unfold expired_force_unlock. cbv zeta.
    rewrite Hacq. unfold store_after, answer. cbn [fst snd].
    rewrite Hsweep, Hlt.
    rewrite Hread. cbn [fst snd]. rewrite Hforce. reflexivity.
  - intros t Ht.
    destruct (absent_record_force_unlocked key (t0 + 2000) name (kept t)
                (Hkept t)) as [Hread Hforce].
    assert (Hlt : expiresAt_lt t lease = true).
    { unfold expiresAt_lt. apply Z.ltb_lt. lia. }
    unfold expired_force_unlock. cbv zeta.
    rewrite Hacq. unfold store_after, answer. cbn [fst snd].
    rewrite Hsweep, Hlt.
    rewrite Hread. cbn [fst snd]. rewrite Hforce. reflexivity.
Qed.

(** The scenario of C7 as the spec words it fails: on an empty collection,
    with no clean-up tick in the two seconds, the force-unlock of the
    expired lease on cache-flush finds the record, answers 200, not 404,
    and deletes it. *)
Lemma expired_force_unlock_answers_200 :
  let run :=
    expired_force_unlock None (Some "admin-secret") 0 1%nat sample_client
      "cache-flush" "worker-C" [] in
  exists created forced,
    run_acquired run = inr created
    /\ run_read run = inr (json true "" (Available "cache-flush"))
    /\ run_forced run = inr forced
    /\ status created = 201
    /\ status forced = 200
    /\ status forced <> 404
    /\ List.length (run_found run) = 1%nat
    /\ run_left run = [].
Proof.
  do 2 eexists. repeat split. discriminate.
Qed.

(** ** The unique indexes are kept

    Every handler, run without interference, takes a collection that
    respects the unique indexes to one that does; so at no time do two
    stored leases, active or not, bear the same resource name. *)

Lemma distinct_keys_filter {K} (key : ResourceLock -> K)
    (keep : ResourceLock -> bool) (st : Store) :
  NoDup (map key st) -> NoDup (map key (filter keep st)).
Proof.
  intros Hnd. induction st as [|d st IH]; simpl; [constructor|].
  inversion Hnd as [|? ? Hnotin Hrest]; subst.
  destruct (keep d); simpl; [|now apply IH].
  constructor; [|now apply IH].
  intros Hin. apply Hnotin. apply in_map_iff in Hin.
  destruct Hin as (x & Hx & Hxin). apply filter_In in Hxin.
  apply in_map_iff. exists x. tauto.
Qed.

Lemma distinct_keys_remove_first {K} (key : ResourceLock -> K) p st :
  NoDup (map key st) -> NoDup (map key (remove_first p st)).
Proof.
  induction st as [|a st IH]; simpl; [auto|].
  intros H. inversion H as [|? ? Hnotin Hnd]; subst.
  destruct (p a); simpl; [assumption|].
  constructor; [|now apply IH].
  intros Hin. apply Hnotin. apply in_map_iff in Hin.
  destruct Hin as (x & Hx & Hxin). apply remove_first_subset in Hxin.
  apply in_map_iff. exists x. tauto.
Qed.

Lemma distinct_keys_snoc {A B} (f : A -> B) (l : list A) (a : A) :
  NoDup (map f l) -> (forall x, In x l -> f x <> f a) ->
  NoDup (map f (l ++ [a])).
Proof.
  induction l as [|b l IH]; simpl; intros Hnd Hfresh.
  - constructor; [tauto|constructor].
  - inversion Hnd as [|? ? Hnotin Hnd']; subst. constructor.
    + rewrite map_app, in_app_iff. simpl. intros [Hin|[Hin|[]]].
      * contradiction.
      * apply (Hfresh b); [now left|now symmetry].
    + apply IH; [assumption|]. intros x Hx. apply Hfresh. now right.
Qed.

Lemma duplicate_key_none doc st :
  existsb (duplicate_key doc) st = false ->
  forall d, In d st -> resourceName d <> resourceName doc /\ _id d <> _id doc.
Proof.
  intros H d Hd.
  assert (Hk : duplicate_key doc d = false).
  { destruct (duplicate_key doc d) eqn:E; [|reflexivity].
    rewrite <- H. symmetry. apply existsb_exists. now exists d. }
  unfold duplicate_key in Hk. apply orb_false_elim in Hk.
  destruct Hk as [Hi Hn]. split.
  - now apply by_resourceName_false.
  - unfold by_id in Hi. now apply Nat.eqb_neq.
Qed.

Lemma save_consistent doc st :
  consistent st -> consistent (store_after (save doc st)).
Proof.
  intros [Hn Hi]. unfold save, store_after.
  destruct (existsb (duplicate_key doc) st) eqn:E; simpl; [now split|].
  pose proof (duplicate_key_none doc st E) as Hfresh.
  split.
  - apply distinct_keys_snoc; [assumption|].
    intros x Hx. now destruct (Hfresh x Hx).
  - apply distinct_keys_snoc; [assumption|].
    intros x Hx. now destruct (Hfresh x Hx).
Qed.

Lemma remove_first_consistent p st :
  consistent st -> consistent (remove_first p st).
Proof.
  intros [Hn Hi]. split; now apply distinct_keys_remove_first.
Qed.

Lemma filter_consistent p st : consistent st -> consistent (filter p st).
Proof.
  intros [Hn Hi]. split; [unfold unique_names|]; now apply distinct_keys_filter.
Qed.

Lemma unique_ids_holder st d d' :
  NoDup (map _id st) -> In d st -> In d' st -> _id d = _id d' -> d = d'.
Proof.
  induction st as [|x st IH]; simpl; [tauto|].
  intros Hnd Hd Hd' Hid. inversion Hnd as [|? ? Hnotin Hnd']; subst.
  destruct Hd as [Hd|Hd], Hd' as [Hd'|Hd'].
  - congruence.
  - subst x. exfalso. apply Hnotin. rewrite Hid. now apply in_map.
  - subst x. exfalso. apply Hnotin. rewrite <- Hid. now apply in_map.
  - now apply IH.
Qed.

Lemma save_modified_same_keys lock t st :
  NoDup (map _id st) -> In lock st ->
  let st' := store_after (save_modified (set_expiresAt lock t) st) in
  map resourceName st' = map resourceName st /\ map _id st' = map _id st.
Proof.
  intros Hnd Hin. unfold save_modified, store_after; simpl.
  rewrite !map_map. split; apply map_ext_in; intros d Hd;
    unfold by_id; destruct (Nat.eqb (_id d) (_id lock)) eqn:E;
    try reflexivity; apply Nat.eqb_eq in E;
    now rewrite (unique_ids_holder st d lock Hnd Hd Hin E).
Qed.

Lemma post_lock_consistent now id client body st :
  consistent st ->
  consistent (store_after (post_lock no_others now id client body st)).
Proof.
  intros Hc. unfold post_lock, validateLockRequest.
  destruct (lockRequestSchema body) as [e|req]; [exact Hc|].
  destruct (List.find (fun d => by_resourceName (req_resourceName req) d
                                && expiresAt_gt now d) st) as [e|] eqn:E.
  - rewrite (lock_handler_conflict _ _ _ _ _ _ _ E). exact Hc.
  - rewrite (lock_handler_insert _ _ _ _ _ _ E). cbv zeta.
    pose proof (save_consistent (new_lock now id client req) st Hc) as Hs.
    unfold save, store_after in Hs. unfold no_others.
    destruct (existsb _ st); exact Hs.
Qed.

Lemma post_unlock_consistent now body st :
  consistent st ->
  consistent (store_after (post_unlock no_others now body st)).
Proof.
  intros Hc. unfold post_unlock, validateUnlockRequest.
  destruct (unlockRequestSchema body) as [e|req]; [exact Hc|].
  unfold unlock_handler, try_catch, bind, findOne. cbv zeta.
  destruct (List.find _ st); [|exact Hc].
  exact (remove_first_consistent _ st Hc).
Qed.

Lemma put_extend_consistent now name body st :
  consistent st ->
  consistent (store_after (put_extend no_others now name body st)).
Proof.
  intros Hc.
  destruct (List.find (owned_active now name (ebody_lockedBy body)) st)
    as [lock|] eqn:E.
  - rewrite (put_extend_found _ _ _ _ _ _ E). cbv zeta.
    apply find_some in E. destruct E as [Hin _].
    destruct (save_modified_same_keys lock
                (expiresAt lock
                 + default 300 (ebody_additionalSeconds body) * 1000)
                st (proj2 Hc) Hin) as [Hn Hi].
    unfold store_after, save_modified in Hn, Hi. simpl in Hn, Hi.
    unfold consistent, unique_names, store_after, no_others.
    simpl fst; simpl snd. rewrite Hn, Hi. exact Hc.
  - unfold put_extend, try_catch, bind, findOne. cbv zeta. rewrite E.
    exact Hc.
Qed.

Lemma delete_force_unlock_consistent ADMIN_KEY now name adminKey st :
  consistent st ->
  consistent (store_after (delete_force_unlock ADMIN_KEY now name adminKey st)).
Proof.
  intros Hc. unfold delete_force_unlock, try_catch, bind, deleteOne.
  destruct (strict_neq adminKey ADMIN_KEY); [exact Hc|].
  destruct (existsb _ st); exact (remove_first_consistent _ st Hc).
Qed.

Lemma cleanup_consistent now st :
  consistent st -> consistent (store_after (cleanup now st)).
Proof.
  intros Hc. rewrite cleanup_run. exact (filter_consistent _ st Hc).
Qed.

(** Mutual exclusion: a consistent collection holds at most one lease per
    resource name, hence at most one active lease. *)
Lemma one_active_lease_per_name now st d d' :
  consistent st -> In d st -> In d' st ->
  resourceName d = resourceName d' -> active now d -> active now d' ->
  d = d'.
Proof.
  intros [Hn _] Hd Hd' Hname _ _. now apply (unique_names_holder st).
Qed.

(** ** Instances *)

Lemma lock_insert_rejected_is_conflict_witness :
  exists r,
    lock_handler worker_A_wins 1000 2%nat sample_client request_of_worker_B []
    = (inr r, worker_A_wins [], [OpFindOne; OpSave])
    /\ status r = 409
    /\ success r = false
    /\ (forall e, status r = status (already_locked 1000 e))
    /\ (forall body, lockRequestSchema body = inr request_of_worker_B ->
          post_lock worker_A_wins 1000 2%nat sample_client body []
          = (inr r, worker_A_wins [], [OpFindOne; OpSave])).
Proof.
  apply (lock_insert_rejected_is_conflict worker_A_wins 1000 2%nat
           sample_client request_of_worker_B [] lock_of_worker_A).
  - intros d [].
  - simpl. left. reflexivity.
  - reflexivity.
Defined.

Lemma expired_leases_are_absent_on_reads_witness :
  get_resource 400000 "db-migration-01" [lock_of_worker_A]
  = (inr (json true "" (Available "db-migration-01")), [lock_of_worker_A],
     [OpFindOne])
  /\ ~ In lock_of_worker_A
         (listed (answer (get_resources any_owner 400000 first_page
                            [lock_of_worker_A])))
  /\ 0 = Z.of_nat (List.length
                     (filter (list_filter any_owner 400000 first_page)
                        (live 400000 [lock_of_worker_A]))).
Proof.
  destruct (expired_leases_are_absent_on_reads any_owner 400000
              "db-migration-01" first_page [lock_of_worker_A])
    as (_ & _ & _ & Hstatus & Hlisted & Htotal).
  split; [|split].
  - apply Hstatus. intros d [<-|[]] _. simpl. lia.
  - apply Hlisted; [left; reflexivity|simpl; lia].
  - apply Htotal. reflexivity.
Defined.

Lemma unlock_by_other_owner_not_found_witness :
  exists r,
    unlock_handler no_others 1000
      (mkUnlockRequest "db-migration-01" "worker-B") [lock_of_worker_A]
    = (inr r, [lock_of_worker_A], [OpFindOne])
    /\ status r = 404
    /\ success r = false
    /\ In lock_of_worker_A
         (store_after (unlock_handler no_others 1000
                         (mkUnlockRequest "db-migration-01" "worker-B")
                         [lock_of_worker_A]))
    /\ active 1000 lock_of_worker_A
    /\ (forall body,
          unlockRequestSchema body
          = inr (mkUnlockRequest "db-migration-01" "worker-B") ->
          post_unlock no_others 1000 body [lock_of_worker_A]
          = (inr r, [lock_of_worker_A], [OpFindOne])).
Proof.
  apply (unlock_by_other_owner_not_found no_others 1000
           (mkUnlockRequest "db-migration-01" "worker-B")
           [lock_of_worker_A] lock_of_worker_A).
  - unfold unique_names. simpl. constructor; [simpl; tauto|constructor].
  - left. reflexivity.
  - reflexivity.
  - unfold active. simpl. lia.
  - simpl. discriminate.
Defined.

Lemma force_unlock_checks_key_then_deletes_witness :
  delete_force_unlock (Some "admin-secret") 400000 "db-migration-01"
    (Some "guess") [lock_of_worker_A]
  = (inr (mkResponse 403 false "Unauthorized: Invalid admin key" NoPayload),
     [lock_of_worker_A], [])
  /\ store_after
       (delete_force_unlock (Some "admin-secret") 400000 "db-migration-01"
          (Some "admin-secret") [lock_of_worker_A; lock_of_worker_C])
     = [lock_of_worker_C]
  /\ answer
       (delete_force_unlock (Some "admin-secret") 400000 "db-migration-01"
          (Some "admin-secret") [lock_of_worker_A; lock_of_worker_C])
     = inr (json true "Resource force unlocked successfully"
              (ForceUnlocked "db-migration-01" 400000)).
Proof.
  split.
  - apply (force_unlock_checks_key_then_deletes (Some "admin-secret") 400000
             "db-migration-01" (Some "guess") [lock_of_worker_A]).
    discriminate.
  - destruct (proj2 (force_unlock_checks_key_then_deletes
                       (Some "admin-secret") 400000 "db-migration-01"
                       (Some "admin-secret")
                       [lock_of_worker_A; lock_of_worker_C]) eq_refl)
      as (Hstore & _ & Hanswer & _).
    split.
    + rewrite Hstore. reflexivity.
    + apply (Hanswer lock_of_worker_A); [left; reflexivity|reflexivity].
Defined.

Lemma malformed_acquire_is_rejected_witness :
  post_lock no_others 1000 3%nat sample_client
    (mkLockBody (Some "db-migration-01") (Some "worker-B") (Some 0)
       None None None) [lock_of_worker_C]
  = (inr (mkResponse 400 false "Validation error"
            (ValidationErrors [mkDetail FLockDuration NumberMin])),
     [lock_of_worker_C], []).
Proof.
  destruct (malformed_acquire_is_rejected no_others 1000 3%nat sample_client
              (mkLockBody (Some "db-migration-01") (Some "worker-B") (Some 0)
                 None None None) [lock_of_worker_C])
    as (detail & Hrun & _ & Honly).
  - unfold malformed_acquire. simpl.
    right. right. right. right. left. exists 0. split; [reflexivity|lia].
  - rewrite Hrun.
    rewrite (Honly (mkDetail FLockDuration NumberMin)); [reflexivity|].
    apply acquire_fails_on_duration; simpl.
    + exists "db-migration-01". repeat split; [discriminate|simpl; lia].
    + exists "worker-B". repeat split; [discriminate|simpl; lia].
    + apply (duration_too_short _ 0); [reflexivity|].
      unfold MAX_SAFE_INTEGER. lia.
Defined.

Lemma expired_force_unlock_depends_on_cleanup_witness :
  let lease :=
    new_lock 0 3%nat sample_client
      (mkLockRequest "cache-flush" "worker-C" (Some 1) (Some "exclusive")
         (Some "") (Some "")) in
  expired_force_unlock (Some 1500) (Some "admin-secret") 0 3%nat sample_client
    "cache-flush" "worker-C" [lock_of_worker_A]
  = mkScenarioRun
      (inr (mkResponse 201 true "Resource locked successfully"
              (Created lease (remainingTime 0 lease))))
      (inr (json true "" (Available "cache-flush")))
      (inr (mkResponse 404 false "Resource lock not found" NoPayload))
      [lock_of_worker_A] [lock_of_worker_A]
  /\ expired_force_unlock (Some 500) (Some "admin-secret") 0 3%nat
       sample_client "cache-flush" "worker-C" [lock_of_worker_A]
     = mkScenarioRun
         (inr (mkResponse 201 true "Resource locked successfully"
                 (Created lease (remainingTime 0 lease))))
         (inr (json true "" (Available "cache-flush")))
         (inr (json true "Resource force unlocked successfully"
                 (ForceUnlocked "cache-flush" 2000)))
         [lock_of_worker_A; lease] [lock_of_worker_A].
Proof.
  intros lease.
  destruct (expired_force_unlock_depends_on_cleanup (Some "admin-secret") 0
              3%nat sample_client "cache-flush" "worker-C" [lock_of_worker_A])
    as (_ & _ & Hearly & Hlate).
  - reflexivity.
  - reflexivity.
  - intros d [<-|[]]. simpl. split; discriminate.
  - split.
    + apply (Hlate 1500). lia.
    + apply (Hearly 500). lia.
Defined.

Lemma any_class_blocks_any_class_witness :
  exists e,
    lock_handler no_others 1000 3%nat sample_client request_of_worker_B
      [lock_of_worker_A]
    = (inr (already_locked 1000 e), [lock_of_worker_A], [OpFindOne])
    /\ status (already_locked 1000 e) = 409
    /\ In e [lock_of_worker_A]
    /\ resourceName e = "db-migration-01"
    /\ active 1000 e
    /\ (unique_names [lock_of_worker_A] -> e = lock_of_worker_A)
    /\ (forall body, lockRequestSchema body = inr request_of_worker_B ->
          post_lock no_others 1000 3%nat sample_client body [lock_of_worker_A]
          = (inr (already_locked 1000 e), [lock_of_worker_A], [OpFindOne])).
Proof.
  apply (any_class_blocks_any_class ClassWrite ClassRead no_others 1000 3%nat
           sample_client request_of_worker_B [lock_of_worker_A]
           lock_of_worker_A).
  - reflexivity.
  - left. reflexivity.
  - reflexivity.
  - reflexivity.
  - unfold active. simpl. lia.
Defined.

Lemma cleanup_twice_deletes_nothing_witness :
  cleanup 62000
    (store_after (cleanup 2000 [lock_of_worker_A; lock_of_worker_C]))
  = (inr (0, []),
     store_after (cleanup 2000 [lock_of_worker_A; lock_of_worker_C]),
     [OpDeleteMany]).
Proof.
  apply (cleanup_twice_deletes_nothing 2000 62000
           [lock_of_worker_A; lock_of_worker_C]).
  intros d [<-|[]]. simpl. lia.
Defined.

Lemma acquire_defaults_witness :
  let lease := new_lock 1000 3%nat sample_client request_without_options in
  post_lock no_others 1000 3%nat sample_client body_without_options
    [lock_of_worker_A]
  = (inr (mkResponse 201 true "Resource locked successfully"
            (Created lease (remainingTime 1000 lease))),
     [lock_of_worker_A; lease], [OpFindOne; OpSave])
  /\ lockDuration lease = 300
  /\ lockType lease = "exclusive"
  /\ purpose (metadata lease) = ""
  /\ sessionId (metadata lease) = ""
  /\ lockedAt lease = 1000
  /\ expiresAt lease = 301000.
Proof.
  intros lease.
  destruct (acquire_defaults no_others 1000 3%nat sample_client
              body_without_options request_without_options
              [lock_of_worker_A])
    as (Hrun & Hd & Ht & Hp & Hs & Hat & _ & Hexp).
  - reflexivity.
  - intros d [<-|[]]. simpl. discriminate.
  - reflexivity.
  - split; [exact Hrun|]. split; [exact Hd|]. split; [exact Ht|].
    split; [exact Hp|]. split; [exact Hs|]. split; [exact Hat|].
    exact (Hexp eq_refl).
Defined.

(** * Further properties of the router *)

(** ** Release by the owner *)

Lemma unlock_handler_found others now req st lock :
  List.find (owned_active now (ureq_resourceName req) (ureq_lockedBy req)) st
  = Some lock ->
  unlock_handler others now req st =
  (inr (json true "Resource unlocked successfully"
          (Unlocked (ureq_resourceName req) (ureq_lockedBy req) now)),
   remove_first (by_id (_id lock)) (others st), [OpFindOne; OpDeleteOne]).
Proof.
  intros H. unfold unlock_handler, try_catch, bind, findOne. cbv zeta.
  rewrite H. reflexivity.
Qed.

Lemma owned_active_true now name owner d :
  owned_active now name owner d = true <->
  resourceName d = name /\ lockedBy d = owner /\ active now d.
Proof.
  unfold owned_active. rewrite !andb_true_iff.
  rewrite by_resourceName_true, String.eqb_eq, expiresAt_gt_true. tauto.
Qed.

Lemma owned_active_none now name owner st :
  (forall d, In d st -> resourceName d = name -> lockedBy d = owner ->
             expiresAt d <= now) ->
  List.find (owned_active now name owner) st = None.
Proof.
  intros H. apply find_none_all. intros d Hd.
  destruct (owned_active now name owner d) eqn:E; [|reflexivity].
  apply owned_active_true in E. destruct E as (Hn & Ho & Ha).
  specialize (H d Hd Hn Ho). unfold active in Ha. lia.
Qed.

Lemma remove_first_by_id st i d :
  NoDup (map _id st) ->
  (In d (remove_first (by_id i) st) <-> In d st /\ _id d <> i).
Proof.
  induction st as [|x st IH]; simpl; [tauto|].
  intros Hnd. inversion Hnd as [|? ? Hnotin Hrest]; subst.
  unfold by_id at 1. destruct (Nat.eqb (_id x) i) eqn:E.
  - apply Nat.eqb_eq in E. split.
    + intros Hd. split; [now right|]. intros Hi. apply Hnotin.
      rewrite E, <- Hi. now apply in_map.
    + intros [[Hd|Hd] Hi]; [subst; contradiction|assumption].
  - apply Nat.eqb_neq in E. simpl. rewrite (IH Hrest). split.
    + intros [Hd|[Hd Hi]]; [subst; tauto|tauto].
    + intros [[Hd|Hd] Hi]; tauto.
Qed.

Lemma remove_first_fresh_snoc st doc :
  (forall d, In d st -> _id d <> _id doc) ->
  remove_first (by_id (_id doc)) (st ++ [doc])%list = st.
Proof.
  intros Hfresh. induction st as [|x st IH]; simpl.
  - unfold by_id. now rewrite Nat.eqb_refl.
  - unfold by_id at 1.
    rewrite (proj2 (Nat.eqb_neq _ _) (Hfresh x (or_introl eq_refl))).
    f_equal. apply IH. intros d Hd. apply Hfresh. now right.
Qed.

Lemma find_snoc_only {A} (p : A -> bool) (l : list A) (a : A) :
  (forall x, In x l -> p x = false) -> p a = true ->
  List.find p (l ++ [a])%list = Some a.
Proof.
  intros Hl Ha. induction l as [|x l IH]; simpl.
  - now rewrite Ha.
  - rewrite (Hl x (or_introl eq_refl)). apply IH.
    intros y Hy. apply Hl. now right.
Qed.

(** X1.  In a collection that respects the unique indexes, a Release by
    the owner of the active lease on a resource name answers 200 after one
    read and one delete; exactly that lease is removed, so no record of
    the name is left and every other record stays. *)
Theorem unlock_releases_owned_lease now req st lock :
  consistent st ->
  In lock st ->
  resourceName lock = ureq_resourceName req ->
  lockedBy lock = ureq_lockedBy req ->
  active now lock ->
  let r := unlock_handler no_others now req st in
  r = (inr (json true "Resource unlocked successfully"
              (Unlocked (ureq_resourceName req) (ureq_lockedBy req) now)),
       remove_first (by_id (_id lock)) st, [OpFindOne; OpDeleteOne])
  /\ (forall d, In d (store_after r) <-> In d st /\ d <> lock)
  /\ (forall d, In d (store_after r) ->
                resourceName d <> ureq_resourceName req).
Proof.
  intros [Hnames Hids] Hin Hname Howner Hact r.
  destruct (find_some_exists
              (owned_active now (ureq_resourceName req) (ureq_lockedBy req))
              st lock Hin) as [e He].
  { now apply owned_active_true. }
  assert (e = lock) as ->.
  { pose proof (find_some _ _ He) as [Hein Hep].
    apply owned_active_true in Hep. destruct Hep as (Hen & _).
    apply (unique_names_holder st); try assumption. congruence. }
  assert (Hrun : r = (inr (json true "Resource unlocked successfully"
                             (Unlocked (ureq_resourceName req)
                                (ureq_lockedBy req) now)),
                      remove_first (by_id (_id lock)) st,
                      [OpFindOne; OpDeleteOne])).
  { unfold r. now rewrite (unlock_handler_found _ _ _ _ _ He). }
  assert (Hkept : forall d, In d (store_after r) <-> In d st /\ d <> lock).
  { intros d. rewrite Hrun. unfold store_after; simpl.
    rewrite (remove_first_by_id st (_id lock) d Hids). split.
    - intros [Hd Hi]. split; [assumption|]. intros ->. now apply Hi.
    - intros [Hd Hne]. split; [assumption|]. intros Hi. apply Hne.
      now apply (unique_ids_holder st). }
  split; [exact Hrun|]. split; [exact Hkept|].
  intros d Hd Hdn. apply Hkept in Hd. destruct Hd as [Hd Hne].
  apply Hne. apply (unique_names_holder st); try assumption. congruence.
Qed.

(** X2.  A Release finds nothing when every record of the resource name and
    owner has expired (or there is none): the handler answers 404 after one
    read and deletes nothing, so an expired lease cannot be released and its
    record stays until it is cleaned up.  The route answers the same for
    every body that validates to the request. *)
Theorem unlock_without_active_lease others now req st :
  (forall d, In d st -> resourceName d = ureq_resourceName req ->
             lockedBy d = ureq_lockedBy req -> expiresAt d <= now) ->
  let not_found :=
    mkResponse 404 false
      "Lock not found or you are not authorized to unlock this resource"
      NoPayload in
  unlock_handler others now req st = (inr not_found, st, [OpFindOne])
  /\ (forall body, unlockRequestSchema body = inr req ->
        post_unlock others now body st = (inr not_found, st, [OpFindOne])).
Proof.
  intros H not_found.
  assert (Hrun : unlock_handler others now req st
                 = (inr not_found, st, [OpFindOne])).
  { unfold unlock_handler, try_catch, bind, findOne. cbv zeta.
    now rewrite (owned_active_none _ _ _ _ H). }
  split; [exact Hrun|].
  intros body Hvalid. now rewrite (post_unlock_valid _ _ _ _ _ Hvalid).
Qed.

(** X3.  The delete of a Release is not checked: once the read has found
    the owner's active lease, the handler answers 200 whatever happened to
    the record meanwhile.  When a concurrent delete has already removed it,
    the delete is a no-op and the collection is left as the others made
    it. *)
Theorem unlock_race_is_benign others now req st lock :
  List.find (owned_active now (ureq_resourceName req) (ureq_lockedBy req)) st
  = Some lock ->
  (forall d, In d (others st) -> _id d <> _id lock) ->
  unlock_handler others now req st
  = (inr (json true "Resource unlocked successfully"
            (Unlocked (ureq_resourceName req) (ureq_lockedBy req) now)),
     others st, [OpFindOne; OpDeleteOne]).
Proof.
  intros Hfind Hgone. rewrite (unlock_handler_found _ _ _ _ _ Hfind).
  assert (Hsame : remove_first (by_id (_id lock)) (others st) = others st).
  { induction (others st) as [|x l IH]; simpl; [reflexivity|].
    unfold by_id at 1.
    rewrite (proj2 (Nat.eqb_neq _ _) (Hgone x (or_introl eq_refl))).
    f_equal. apply IH. intros d Hd. apply Hgone. now right. }
  now rewrite Hsame.
Qed.

(** ** Extension without a matching lease *)

(** X4.  An Extend finds nothing when every record of the resource name and
    owner has expired (or there is none): the handler answers 404 after one
    read and writes nothing, so an expired lease cannot be revived by
    extending it, whatever [additionalSeconds] says. *)
Theorem extend_without_active_lease others now name body st :
  (forall d, In d st -> resourceName d = name ->
             lockedBy d = ebody_lockedBy body -> expiresAt d <= now) ->
  put_extend others now name body st
  = (inr (mkResponse 404 false
            "Lock not found or you are not authorized to extend this lock"
            NoPayload),
     st, [OpFindOne]).
Proof.
  intros H. unfold put_extend, try_catch, bind, findOne. cbv zeta.
  now rewrite (owned_active_none _ _ _ _ H).
Qed.

(** ** Administrative release, further *)

(** X5.  When [ADMIN_KEY] is not set in the environment, the comparison
    [adminKey !== process.env.ADMIN_KEY] lets through exactly the requests
    whose body has no [adminKey]: such a request deletes the record of the
    name like an authorised one, and every request that does send a key is
    answered 403 without a round trip. *)
Theorem force_unlock_unset_admin_key now name adminKey st :
  (adminKey = None ->
     delete_force_unlock None now name adminKey st
     = (inr (if existsb (by_resourceName name) st
             then json true "Resource force unlocked successfully"
                    (ForceUnlocked name now)
             else mkResponse 404 false "Resource lock not found" NoPayload),
        remove_first (by_resourceName name) st, [OpDeleteOne]))
  /\ (adminKey <> None ->
      delete_force_unlock None now name adminKey st
      = (inr (mkResponse 403 false "Unauthorized: Invalid admin key" NoPayload),
         st, [])).
Proof.
  split.
  - intros ->. apply delete_force_unlock_authorized.
  - intros Hkey. destruct adminKey as [k|]; [reflexivity|contradiction].
Qed.

(** X6.  In a collection that respects the unique index, a second
    ForceRelease of the same name right after a first authorised one finds
    nothing: it answers 404 and leaves the collection as the first left
    it. *)
Theorem force_unlock_twice ADMIN_KEY now now' name st :
  unique_names st ->
  let st1 :=
    store_after (delete_force_unlock ADMIN_KEY now name ADMIN_KEY st) in
  delete_force_unlock ADMIN_KEY now' name ADMIN_KEY st1
  = (inr (mkResponse 404 false "Resource lock not found" NoPayload),
     st1, [OpDeleteOne]).
Proof.
  intros Huniq st1.
  assert (Hst1 : st1 = remove_first (by_resourceName name) st).
  { unfold st1. now rewrite delete_force_unlock_authorized. }
  assert (Hgone : forall d, In d st1 -> resourceName d <> name).
  { rewrite Hst1. now apply remove_first_unique_gone. }
  rewrite delete_force_unlock_authorized.
  pose proof (no_record_not_found name st1 Hgone) as Hnone.
  rewrite Hnone. f_equal. f_equal.
  clear Hst1 Hnone. induction st1 as [|x l IH]; simpl; [reflexivity|].
  rewrite (proj2 (by_resourceName_false _ _) (Hgone x (or_introl eq_refl))).
  f_equal. apply IH. intros d Hd. apply Hgone. now right.
Qed.

(** X7.  An authorised ForceRelease frees the name: in a collection that
    respects the unique index, the next Acquire of that name, under an
    identifier not in use, passes the pre-check and the insert and answers
    201, whoever held the lease and whether or not it had expired. *)
Theorem force_unlock_frees_name ADMIN_KEY now now' id client req st :
  unique_names st ->
  (forall d, In d st -> _id d <> id) ->
  let st1 :=
    store_after (delete_force_unlock ADMIN_KEY now (req_resourceName req)
                   ADMIN_KEY st) in
  let lease := new_lock now' id client req in
  lock_handler no_others now' id client req st1
  = (inr (mkResponse 201 true "Resource locked successfully"
            (Created lease (remainingTime now' lease))),
     (st1 ++ [lease])%list, [OpFindOne; OpSave]).
Proof.
  intros Huniq Hid st1 lease.
  assert (Hst1 : st1 = remove_first (by_resourceName (req_resourceName req)) st).
  { unfold st1. now rewrite delete_force_unlock_authorized. }
  assert (Hgone : forall d, In d st1 ->
                            resourceName d <> req_resourceName req).
  { rewrite Hst1. now apply remove_first_unique_gone. }
  assert (Hids : forall d, In d st1 -> _id d <> id).
  { rewrite Hst1. intros d Hd. apply Hid.
    now apply remove_first_subset in Hd. }
  rewrite lock_handler_insert.
  - cbv zeta. unfold no_others. fold lease.
    rewrite fresh_key_not_duplicate; [reflexivity|].
    intros d Hd. split; [now apply Hgone|now apply Hids].
  - apply getLockInfo_none. intros d Hd Hdn. now destruct (Hgone d Hd).
Qed.

(** ** Acquire and release compose *)

(** X8.  On a collection with no record of the resource name and none
    under the new identifier, an Acquire followed by a Release by the same
    owner before the expiry answers 201 and then 200 and leaves the
    collection exactly as it was before the Acquire. *)
Theorem acquire_then_unlock_restores now now' id client req st :
  (forall d, In d st ->
             resourceName d <> req_resourceName req /\ _id d <> id) ->
  now' < now + default 300 (req_lockDuration req) * 1000 ->
  let lease := new_lock now id client req in
  let acquired := lock_handler no_others now id client req st in
  acquired
  = (inr (mkResponse 201 true "Resource locked successfully"
            (Created lease (remainingTime now lease))),
     (st ++ [lease])%list, [OpFindOne; OpSave])
  /\ unlock_handler no_others now'
       (mkUnlockRequest (req_resourceName req) (req_lockedBy req))
       (store_after acquired)
     = (inr (json true "Resource unlocked successfully"
               (Unlocked (req_resourceName req) (req_lockedBy req) now')),
        st, [OpFindOne; OpDeleteOne]).
Proof.
  intros Hfresh Hlive lease acquired.
  assert (Hacq : acquired
                 = (inr (mkResponse 201 true "Resource locked successfully"
                           (Created lease (remainingTime now lease))),
                    (st ++ [lease])%list, [OpFindOne; OpSave])).
  { unfold acquired. rewrite lock_handler_insert.
    - cbv zeta. unfold no_others. fold lease.
      rewrite fresh_key_not_duplicate; [reflexivity|].
      intros d Hd. simpl. now apply Hfresh.
    - apply getLockInfo_none. intros d Hd Hdn.
      now destruct (Hfresh d Hd). }
  split; [exact Hacq|].
  rewrite Hacq. unfold store_after; simpl fst; simpl snd.
  rewrite (unlock_handler_found _ _ _ _ lease).
  - unfold no_others. simpl ureq_resourceName. simpl ureq_lockedBy.
    rewrite (remove_first_fresh_snoc st lease); [reflexivity|].
    intros d Hd. simpl. now destruct (Hfresh d Hd).
  - apply find_snoc_only.
    + intros d Hd. destruct (owned_active now' _ _ d) eqn:E; [|reflexivity].
      apply owned_active_true in E. simpl in E.
      destruct (Hfresh d Hd) as [Hne _]. tauto.
    + apply owned_active_true. simpl. repeat split.
      unfold active. simpl. lia.
Qed.

(** ** The clean-up and the readers *)

Lemma active_not_swept t now d :
  t <= now -> expiresAt_gt now d = true -> negb (expiresAt_lt t d) = true.
Proof.
  intros Ht Hgt. apply expiresAt_gt_true in Hgt. unfold active in Hgt.
  unfold expiresAt_lt. apply negb_true_iff, Z.ltb_ge. lia.
Qed.

Lemma owned_active_is_active now name owner d :
  owned_active now name owner d = true -> expiresAt_gt now d = true.
Proof. unfold owned_active. intros H. apply andb_prop in H. tauto. Qed.

(** X9.  A clean-up tick is invisible to the requests that come after it:
    at any time not earlier than the tick, the status read, the listing,
    a Release and an Extend answer the same on the swept collection as on
    the collection the tick found. *)
Theorem cleanup_invisible_to_readers regexp_i t now name q req body st :
  t <= now ->
  let swept := store_after (cleanup t st) in
  answer (get_resource now name swept) = answer (get_resource now name st)
  /\ answer (get_resources regexp_i now q swept)
     = answer (get_resources regexp_i now q st)
  /\ answer (unlock_handler no_others now req swept)
     = answer (unlock_handler no_others now req st)
  /\ answer (put_extend no_others now name body swept)
     = answer (put_extend no_others now name body st).
Proof.
  intros Ht swept.
  assert (Hswept : swept = filter (fun d => negb (expiresAt_lt t d)) st).
  { unfold swept. now rewrite cleanup_run. }
  rewrite Hswept. clear swept Hswept.
  repeat split.
  - unfold get_resource, try_catch, bind. rewrite !getLockInfo_run.
    rewrite find_filter_absorb.
    + destruct (List.find _ st); reflexivity.
    + intros d Hd. apply (active_not_swept t now d Ht).
      now apply status_filter_active in Hd.
  - rewrite !get_resources_run. cbv zeta.
    rewrite filter_filter_absorb.
    + destruct (owner_filter regexp_i q) as [error|owner]; [reflexivity|].
      destruct (_ <? 0); reflexivity.
    + intros d Hd. apply (active_not_swept t now d Ht).
      now apply list_filter_active in Hd.
  - unfold unlock_handler, try_catch, bind, findOne. cbv zeta.
    rewrite find_filter_absorb.
    + destruct (List.find _ st); reflexivity.
    + intros d Hd. apply (active_not_swept t now d Ht).
      now apply owned_active_is_active in Hd.
  - unfold put_extend, try_catch, bind, findOne. cbv zeta.
    rewrite find_filter_absorb.
    + destruct (List.find _ st); reflexivity.
    + intros d Hd. apply (active_not_swept t now d Ht).
      now apply owned_active_is_active in Hd.
Qed.

Lemma sweep_twice t1 t2 (st : Store) :
  filter (fun d => negb (expiresAt_lt t2 d))
    (filter (fun d => negb (expiresAt_lt t1 d)) st)
  = filter (fun d => negb (expiresAt_lt (Z.max t1 t2) d)) st.
Proof.
  induction st as [|d st IH]; simpl; [reflexivity|].
  assert (Hmax : negb (expiresAt_lt (Z.max t1 t2) d)
                 = negb (expiresAt_lt t1 d) && negb (expiresAt_lt t2 d)).
  { unfold expiresAt_lt.
    destruct (Z.ltb_spec (expiresAt d) (Z.max t1 t2)),
             (Z.ltb_spec (expiresAt d) t1),
             (Z.ltb_spec (expiresAt d) t2); simpl; try reflexivity; lia. }
  rewrite Hmax.
  destruct (negb (expiresAt_lt t1 d)); simpl; [|exact IH].
  destruct (negb (expiresAt_lt t2 d)); now rewrite IH.
Qed.

Lemma sweep_counts t (st : Store) :
  (List.length (filter (expiresAt_lt t) st)
   + List.length (filter (fun d => negb (expiresAt_lt t d)) st))%nat
  = List.length st.
Proof.
  induction st as [|d st IH]; simpl; [reflexivity|].
  destruct (expiresAt_lt t d); simpl; lia.
Qed.

(** X10.  Two clean-up ticks in a row, in either order of their times,
    leave the collection that one tick at the later time leaves, and
    together delete as many records as that one tick. *)
Theorem cleanup_order_independent t1 t2 st :
  let first := cleanup t1 st in
  let second := cleanup t2 (store_after first) in
  let single := cleanup (Z.max t1 t2) st in
  store_after second = store_after single
  /\ (exists n1 log1 n2 log2 n log,
        answer first = inr (n1, log1)
        /\ answer second = inr (n2, log2)
        /\ answer single = inr (n, log)
        /\ n1 + n2 = n)
  /\ store_after (cleanup t1 (store_after (cleanup t2 st)))
     = store_after second.
Proof.
  intros first second single.
  unfold second, single, first. rewrite !cleanup_run. cbv zeta.
  unfold store_after, answer; simpl fst; simpl snd.
  split; [apply sweep_twice|]. split.
  - do 6 eexists. repeat split.
    pose proof (sweep_counts t1 st) as H1.
    pose proof (sweep_counts t2 (filter (fun d => negb (expiresAt_lt t1 d)) st))
      as H2.
    pose proof (sweep_counts (Z.max t1 t2) st) as H3.
    rewrite sweep_twice in H2. lia.
  - rewrite !sweep_twice. now rewrite Z.max_comm.
Qed.

(** X11.  A clean-up tick accounts for every record: the count it reports
    and the records it leaves add up to the size of the collection.  It
    writes one line with the count when it deleted something and nothing
    otherwise; when no record has expired it leaves the collection
    untouched. *)
Theorem cleanup_accounts now st :
  exists deletedCount log,
    answer (cleanup now st) = inr (deletedCount, log)
    /\ deletedCount + Z.of_nat (List.length (store_after (cleanup now st)))
       = Z.of_nat (List.length st)
    /\ 0 <= deletedCount
    /\ log = (if 0 <? deletedCount then [CleanedUp deletedCount] else [])
    /\ ((forall d, In d st -> now <= expiresAt d) ->
        deletedCount = 0 /\ store_after (cleanup now st) = st).
Proof.
  rewrite cleanup_run. cbv zeta. unfold answer, store_after; simpl fst; simpl snd.
  do 2 eexists. split; [reflexivity|].
  pose proof (sweep_counts now st) as Hc.
  split; [lia|]. split; [lia|]. split; [reflexivity|].
  intros Hnone.
  assert (Hlt : forall d, In d st -> expiresAt_lt now d = false).
  { intros d Hd. unfold expiresAt_lt. apply Z.ltb_ge. now apply Hnone. }
  rewrite (filter_none _ _ Hlt). split; [reflexivity|].
  apply filter_all. intros d Hd. now rewrite (Hlt d Hd).
Qed.

(** ** The listing *)

Lemma firstn_plus {A} (a b : nat) (l : list A) :
  firstn (a + b) l = (firstn a l ++ firstn b (skipn a l))%list.
Proof.
  revert l. induction a as [|a IH]; intros l; simpl; [reflexivity|].
  destruct l as [|x l]; simpl.
  - now rewrite firstn_nil.
  - now rewrite IH.
Qed.

Lemma insert_by_lockedAt_perm d l :
  Permutation (insert_by_lockedAt d l) (d :: l).
Proof.
  induction l as [|x l IH]; simpl; [apply Permutation_refl|].
  destruct (lockedAt x <=? lockedAt d); [apply Permutation_refl|].
  apply perm_trans with (x :: d :: l).
  - now apply perm_skip.
  - apply perm_swap.
Qed.

Lemma sort_lockedAt_desc_perm l : Permutation (sort_lockedAt_desc l) l.
Proof.
  induction l as [|d l IH]; simpl; [apply perm_nil|].
  apply perm_trans with (d :: sort_lockedAt_desc l).
  - apply insert_by_lockedAt_perm.
  - now apply perm_skip.
Qed.

Lemma insert_by_lockedAt_sorted d l :
  newest_first l -> newest_first (insert_by_lockedAt d l).
Proof.
  unfold newest_first. induction l as [|x l IH]; simpl; intros Hs.
  - constructor; constructor.
  - apply StronglySorted_inv in Hs. destruct Hs as [Hl Hx].
    destruct (lockedAt x <=? lockedAt d) eqn:E.
    + apply Z.leb_le in E. constructor.
      * now constructor.
      * constructor; [exact E|].
        rewrite Forall_forall in Hx |- *. intros b Hb.
        specialize (Hx b Hb). simpl in Hx. lia.
    + apply Z.leb_gt in E. constructor; [now apply IH|].
      rewrite Forall_forall in Hx |- *. intros b Hb.
      apply in_insert_by_lockedAt in Hb. destruct Hb as [->|Hb].
      * lia.
      * now apply Hx.
Qed.

Lemma sort_lockedAt_desc_sorted l : newest_first (sort_lockedAt_desc l).
Proof.
  induction l as [|d l IH]; simpl.
  - constructor.
  - now apply insert_by_lockedAt_sorted.
Qed.

Lemma newest_first_skipn n l : newest_first l -> newest_first (skipn n l).
Proof.
  unfold newest_first. revert l. induction n as [|n IH]; intros l Hs; simpl;
    [exact Hs|].
  destruct l as [|x l]; [constructor|].
  apply StronglySorted_inv in Hs. now apply IH.
Qed.

Lemma newest_first_firstn n l : newest_first l -> newest_first (firstn n l).
Proof.
  unfold newest_first. revert l. induction n as [|n IH]; intros l Hs; simpl;
    [constructor|].
  destruct l as [|x l]; [constructor|].
  apply StronglySorted_inv in Hs. destruct Hs as [Hl Hx].
  constructor; [now apply IH|].
  rewrite Forall_forall in Hx |- *. intros b Hb.
  apply Hx. now apply in_firstn in Hb.
Qed.

Lemma listed_run regexp_i now q st :
  listed (answer (get_resources regexp_i now q st)) =
  match owner_filter regexp_i q with
  | inl _ => []
  | inr _ =>
      let page := default 1 (query_page q) in
      let limit := default 20 (query_limit q) in
      let sorted :=
        sort_lockedAt_desc (filter (list_filter regexp_i now q) st) in
      if (page - 1) * limit <? 0 then []
      else
        let rest := skipn (Z.to_nat ((page - 1) * limit)) sorted in
        if limit * 1 =? 0 then rest
        else firstn (Z.to_nat (Z.abs (limit * 1))) rest
  end.
Proof.
  rewrite get_resources_run. cbv zeta.
  destruct (owner_filter regexp_i q) as [error|owner]; [reflexivity|].
  destruct (_ <? 0); [reflexivity|].
  unfold answer, listed; simpl. rewrite map_map; simpl. apply map_id.
Qed.

Lemma listed_page regexp_i now q st :
  owner_pattern_compiles regexp_i q ->
  1 <= default 1 (query_page q) ->
  1 <= default 20 (query_limit q) ->
  listed (answer (get_resources regexp_i now q st)) =
  firstn (Z.to_nat (default 20 (query_limit q)))
    (skipn (Z.to_nat ((default 1 (query_page q) - 1)
                      * default 20 (query_limit q)))
       (sort_lockedAt_desc (filter (list_filter regexp_i now q) st))).
Proof.
  intros [owner Hre] Hp Hl. rewrite listed_run, Hre. cbv zeta.
  assert (((default 1 (query_page q) - 1) * default 20 (query_limit q) <? 0)
          = false) as -> by (apply Z.ltb_ge; nia).
  assert ((default 20 (query_limit q) * 1 =? 0) = false) as ->
    by (apply Z.eqb_neq; lia).
  now rewrite Z.mul_1_r, Z.abs_eq by lia.
Qed.


Lemma first_pages_run regexp_i now q st k :
  owner_pattern_compiles regexp_i q ->
  1 <= default 20 (query_limit q) ->
  first_pages regexp_i now q st k
  = firstn (k * Z.to_nat (default 20 (query_limit q)))
      (sort_lockedAt_desc (filter (list_filter regexp_i now q) st)).
Proof.
  intros Hre Hl. induction k as [|k IH]; [reflexivity|].
  cbn [first_pages]. rewrite IH.
  rewrite (listed_page regexp_i now (at_page q (Z.of_nat (S k))) st);
    [|exact Hre|simpl; lia|exact Hl].
  cbn [at_page query_page query_limit default].
  set (limit := default 20 (query_limit q)) in *.
  replace (Z.to_nat ((Z.of_nat (S k) - 1) * limit))
    with (k * Z.to_nat limit)%nat by nia.
  replace (S k * Z.to_nat limit)%nat
    with (k * Z.to_nat limit + Z.to_nat limit)%nat by lia.
  symmetry. apply firstn_plus.
Qed.

(** X13.  With a [lockedBy] pattern that compiles (or none), read page
    after page with one limit of at least 1 on an unchanged collection, the
    listing shows the matching active locks in one fixed order, each page
    continuing where the page before stopped: pages 1 to [k] together are
    the first [k * limit] of them, and once [k * limit] reaches their
    number they show every matching lock exactly once. *)
Theorem listing_pages_tile regexp_i now q st k :
  let limit := Z.to_nat (default 20 (query_limit q)) in
  let matching := filter (list_filter regexp_i now q) st in
  owner_pattern_compiles regexp_i q ->
  1 <= default 20 (query_limit q) ->
  first_pages regexp_i now q st k
  = firstn (k * limit) (sort_lockedAt_desc matching)
  /\ ((List.length matching <= k * limit)%nat ->
      Permutation (first_pages regexp_i now q st k) matching).
Proof.
  intros limit matching Hre Hl.
  pose proof (first_pages_run regexp_i now q st k Hre Hl) as Hrun.
  split; [exact Hrun|].
  intros Hall. rewrite Hrun. fold matching limit.
  rewrite firstn_all2.
  - apply sort_lockedAt_desc_perm.
  - now rewrite (Permutation_length (sort_lockedAt_desc_perm matching)).
Qed.

(** X14.  Every page of the listing is in descending order of [lockedAt],
    newest lock first, for every page number and limit. *)
Theorem listing_newest_first regexp_i now q st :
  newest_first (listed (answer (get_resources regexp_i now q st))).
Proof.
  rewrite listed_run. cbv zeta.
  destruct (owner_filter regexp_i q) as [error|owner]; [constructor|].
  destruct (_ <? 0); [constructor|].
  destruct (_ =? 0).
  - apply newest_first_skipn, sort_lockedAt_desc_sorted.
  - apply newest_first_firstn, newest_first_skipn, sort_lockedAt_desc_sorted.
Qed.

(** X15.  Every lock a listing shows is a stored, active lock that passes
    the filters of the query: its [lockType] is the one asked for, and its
    owner matches the compiled [lockedBy] pattern, whenever the parameter
    is given and not empty. *)
Theorem listing_respects_filters regexp_i now q st d :
  In d (listed (answer (get_resources regexp_i now q st))) ->
  In d st
  /\ active now d
  /\ (forall t, query_lockType q = Some t -> t <> "" -> lockType d = t)
  /\ (forall p, query_lockedBy q = Some p -> p <> "" ->
        exists test, regexp_i p = Some test /\ test (lockedBy d) = true).
Proof.
  intros Hlisted. pose proof Hlisted as Hd. apply listed_in_matching in Hd.
  apply filter_In in Hd. destruct Hd as [Hin Hf].
  split; [exact Hin|].
  unfold list_filter in Hf. apply andb_prop in Hf. destruct Hf as [Hf Ht].
  apply andb_prop in Hf. destruct Hf as [Ha Ho].
  split; [now apply expiresAt_gt_true|]. split.
  - intros t Hq Hne. rewrite Hq in Ht. simpl in Ht.
    rewrite (proj2 (String.eqb_neq t "") Hne) in Ht.
    now apply String.eqb_eq.
  - intros p Hq Hne. rewrite listed_run in Hlisted.
    unfold owner_filter in Hlisted, Ho. rewrite Hq in Hlisted, Ho.
    simpl in Hlisted, Ho.
    rewrite (proj2 (String.eqb_neq p "") Hne) in Hlisted, Ho.
    destruct (regexp_i p) as [test|]; [|contradiction].
    now exists test.
Qed.

(** X16.  An empty [lockedBy] or [lockType] parameter filters nothing: the
    listing answers as if the parameter were absent. *)
Theorem listing_ignores_empty_filters regexp_i now page limit owner class st :
  (owner = None \/ owner = Some "") ->
  (class = None \/ class = Some "") ->
  get_resources regexp_i now (mkListQuery page limit owner class) st
  = get_resources regexp_i now (mkListQuery page limit None None) st.
Proof.
  intros [-> | ->] [-> | ->]; reflexivity.
Qed.

(** ** The schemas, further *)

Lemma resourceName_rules_accept s :
  s <> "" -> (String.length s <= 255)%nat -> all_chars allowed_char s = true ->
  joi_string [Min 1; Max 255; Pattern resourceName_pattern] s = None.
Proof.
  intros Hne Hlen Hchars. unfold joi_string; simpl.
  rewrite (proj2 (String.eqb_neq s "") Hne).
  assert (Hpos : (1 <= String.length s)%nat).
  { destruct s; [contradiction|simpl; lia]. }
  rewrite (proj2 (Nat.ltb_ge _ _) Hpos), (proj2 (Nat.ltb_ge _ _) Hlen).
  unfold resourceName_pattern.
  now rewrite (proj2 (String.eqb_neq s "") Hne), Hchars.
Qed.

Lemma text_rules_accept limit s :
  s <> "" -> (String.length s <= limit)%nat ->
  joi_string [Max limit] s = None.
Proof.
  intros Hne Hlen. unfold joi_string; simpl.
  now rewrite (proj2 (String.eqb_neq s "") Hne), (proj2 (Nat.ltb_ge _ _) Hlen).
Qed.

Lemma text_rules_pass limit s :
  joi_string [Max limit] s = None ->
  s <> "" /\ (String.length s <= limit)%nat.
Proof.
  unfold joi_string; simpl.
  destruct (String.eqb s "") eqn:Hs; [discriminate|].
  destruct (Nat.ltb limit (String.length s)) eqn:Hmax; [discriminate|].
  intros _. split; [now apply String.eqb_neq|now apply Nat.ltb_ge].
Qed.

Lemma lockedBy_rules_accept s :
  s <> "" -> (String.length s <= 100)%nat ->
  joi_string [Min 1; Max 100] s = None.
Proof.
  intros Hne Hlen. unfold joi_string; simpl.
  rewrite (proj2 (String.eqb_neq s "") Hne).
  assert (Hpos : (1 <= String.length s)%nat).
  { destruct s; [contradiction|simpl; lia]. }
  now rewrite (proj2 (Nat.ltb_ge _ _) Hpos), (proj2 (Nat.ltb_ge _ _) Hlen).
Qed.

Lemma lockDuration_rules_accept n :
  1 <= n <= 86400 -> joi_number [Integer; NMin 1; NMax 86400] n = None.
Proof.
  intros Hn. unfold joi_number, MAX_SAFE_INTEGER.
  rewrite (proj2 (Z.ltb_ge _ _)) by lia.
  rewrite (proj2 (Z.ltb_ge _ _)) by lia. simpl.
  rewrite (proj2 (Z.ltb_ge _ _)) by lia.
  now rewrite (proj2 (Z.ltb_ge _ _)) by lia.
Qed.

Lemma lockType_rules_iff t :
  joi_string [Valid ["read"; "write"; "exclusive"]] t = None
  <-> t = "read" \/ t = "write" \/ t = "exclusive".
Proof.
  unfold joi_string; simpl.
  destruct (String.eqb_spec t "read"); simpl; [tauto|].
  destruct (String.eqb_spec t "write"); simpl; [tauto|].
  destruct (String.eqb_spec t "exclusive"); simpl; [tauto|].
  split; [discriminate|tauto].
Qed.

Lemma lockRequestSchema_options body req :
  lockRequestSchema body = inr req ->
  (forall t, body_lockType body = Some t ->
     joi_string [Valid ["read"; "write"; "exclusive"]] t = None)
  /\ (forall s, body_purpose body = Some s -> joi_string [Max 255] s = None)
  /\ (forall s, body_sessionId body = Some s -> joi_string [Max 100] s = None).
Proof.
  destruct body as [rn lb ld lt pu si].
  unfold lockRequestSchema, and_then, required, optional; simpl.
  destruct rn as [rn|]; [|discriminate].
  destruct (joi_string [Min 1; Max 255; Pattern resourceName_pattern] rn);
    [discriminate|].
  destruct lb as [lb|]; [|discriminate].
  destruct (joi_string [Min 1; Max 100] lb); [discriminate|].
  destruct ld as [ld|];
    [destruct (joi_number [Integer; NMin 1; NMax 86400] ld); [discriminate|]|];
    (destruct lt as [lt|];
       [destruct (joi_string [Valid ["read"; "write"; "exclusive"]] lt)
          eqn:Hlt; [discriminate|]|]);
    (destruct pu as [pu|];
       [destruct (joi_string [Max 255] pu) eqn:Hpu; [discriminate|]|]);
    (destruct si as [si|];
       [destruct (joi_string [Max 100] si) eqn:Hsi; [discriminate|]|]);
    intros _; repeat split; intros x Hx; try discriminate;
    injection Hx as <-; assumption.
Qed.

Lemma unlockRequestSchema_value body req :
  unlockRequestSchema body = inr req ->
  ubody_resourceName body = Some (ureq_resourceName req)
  /\ joi_string [Min 1; Max 255; Pattern resourceName_pattern]
       (ureq_resourceName req) = None
  /\ ubody_lockedBy body = Some (ureq_lockedBy req)
  /\ joi_string [Min 1; Max 100] (ureq_lockedBy req) = None.
Proof.
  destruct body as [rn lb].
  unfold unlockRequestSchema, and_then, required; simpl.
  destruct rn as [rn|]; [|discriminate].
  destruct (joi_string [Min 1; Max 255; Pattern resourceName_pattern] rn)
    eqn:Hrn; [discriminate|].
  destruct lb as [lb|]; [|discriminate].
  destruct (joi_string [Min 1; Max 100] lb) eqn:Hlb; [discriminate|].
  intros H. injection H as <-. simpl. repeat split; assumption.
Qed.

Lemma release_failure_reported b d :
  release_failure b d -> unlockRequestSchema b = inl d.
Proof.
  intros [e Hname|e Hname Howner]; unfold unlockRequestSchema.
  - now rewrite (name_failure_reported _ _ Hname).
  - destruct (well_formed_name_passes _ Hname) as (s & _ & ->). simpl.
    now rewrite (owner_failure_reported _ _ Howner).
Qed.

Lemma malformed_release_fails b :
  malformed_release b -> exists d, release_failure b d.
Proof.
  intros Hbad.
  destruct (name_dichotomy (ubody_resourceName b)) as [Hname|[e He]];
    [|exists (mkDetail FResourceName e); now apply release_fails_on_name].
  destruct (owner_dichotomy (ubody_lockedBy b)) as [Howner|[e He]];
    [|exists (mkDetail FLockedBy e); now apply release_fails_on_owner].
  exfalso.
  destruct Hname as (s & Hs & Hne & Hlen & Hchars).
  destruct Howner as (o & Ho & Hone & Holen).
  destruct Hbad as [H|[H|[H|[H|[H|[H|H]]]]]]; try congruence.
  - destruct H as (s' & Hs' & Hlong).
    assert (s' = s) by congruence. subst s'. lia.
  - destruct H as (s' & c & Hs' & Hocc & Hc).
    assert (s' = s) by congruence. subst s'.
    rewrite (all_chars_occurs _ _ _ Hchars Hocc) in Hc. discriminate.
  - destruct H as (o' & Ho' & Hlong).
    assert (o' = o) by congruence. subst o'. lia.
Qed.

(** X17.  A Release whose resource name is empty, too long or has a
    character outside the pattern, or whose owner token is empty or longer
    than 100 characters, is answered 400 by the middleware, and the one
    error it carries names the first key in schema order whose value breaks
    a rule (resource name, then owner) and the first rule that value
    breaks; no other detail fits.  The handler does not run and the store
    is not touched. *)
Theorem malformed_release_is_rejected others now body st :
  malformed_release body ->
  exists detail,
    post_unlock others now body st
    = (inr (mkResponse 400 false "Validation error"
              (ValidationErrors [detail])),
       st, [])
    /\ release_failure body detail
    /\ (forall other, release_failure body other -> other = detail).
Proof.
  intros Hbad.
  destruct (malformed_release_fails body Hbad) as [detail Hfails].
  pose proof (release_failure_reported body detail Hfails) as Hschema.
  exists detail. split; [|split].
  - unfold post_unlock, validateUnlockRequest. now rewrite Hschema.
  - exact Hfails.
  - intros other Hother.
    pose proof (release_failure_reported body other Hother) as Hschema'.
    congruence.
Qed.

(** X18.  The two schemas agree on the resource name and the owner token:
    whatever pair the lock schema lets through, the unlock schema lets
    through unchanged, and the other way round with the optional fields of
    an Acquire left out.  So a lease that could be acquired through the
    route can be named in a Release. *)
Theorem lock_and_unlock_schemas_agree name owner :
  (exists req,
     lockRequestSchema (mkLockBody (Some name) (Some owner) None None None None)
     = inr req)
  <-> unlockRequestSchema (mkUnlockBody (Some name) (Some owner))
      = inr (mkUnlockRequest name owner).
Proof.
  split.
  - intros [req Hvalid].
    destruct (lockRequestSchema_value _ req Hvalid)
      as (Hrn & Hrules & Hlb & Hlrules & _).
    simpl in Hrn, Hlb. injection Hrn as Hrn. injection Hlb as Hlb.
    rewrite <- Hrn in Hrules. rewrite <- Hlb in Hlrules.
    unfold unlockRequestSchema, and_then, required; simpl.
    now rewrite Hrules, Hlrules.
  - intros Hvalid.
    destruct (unlockRequestSchema_value _ _ Hvalid)
      as (_ & Hrules & _ & Hlrules). simpl in Hrules, Hlrules.
    eexists. unfold lockRequestSchema, and_then, required, optional; simpl.
    rewrite Hrules, Hlrules. reflexivity.
Qed.

(** X19.  The lock schema accepts exactly the well-formed bodies: a
    resource name of 1 to 255 characters of the pattern, an owner token of
    1 to 100 characters, and, where given, a duration from 1 to 86400, a
    lock type among read, write and exclusive, and a purpose and a session
    identifier that are not empty and within 255 and 100 characters.  The
    validated value keeps the fields given and takes the defaults for the
    others. *)
Theorem lock_schema_accepts_well_formed body :
  well_formed_acquire body <->
  exists name owner,
    body_resourceName body = Some name
    /\ body_lockedBy body = Some owner
    /\ lockRequestSchema body
       = inr (mkLockRequest name owner
                (Some (default 300 (body_lockDuration body)))
                (Some (default "exclusive" (body_lockType body)))
                (Some (default "" (body_purpose body)))
                (Some (default "" (body_sessionId body)))).
Proof.
  split.
  - intros ((name & Hrn & Hne & Hlen & Hchars) & (owner & Hlb & Hone & Holen)
            & Hdur & Htype & Hpurpose & Hsession).
    exists name, owner. split; [exact Hrn|]. split; [exact Hlb|].
    destruct body as [rn lb ld lt pu si]. simpl in *. subst rn lb.
    unfold lockRequestSchema, and_then, required, optional; simpl.
    rewrite (resourceName_rules_accept name Hne Hlen Hchars).
    rewrite (lockedBy_rules_accept owner Hone Holen).
    destruct ld as [ld|];
      [rewrite (lockDuration_rules_accept ld Hdur)|];
      (destruct lt as [lt|];
         [rewrite (proj2 (lockType_rules_iff lt) Htype)|]);
      (destruct pu as [pu|];
         [rewrite (text_rules_accept 255 pu (proj1 Hpurpose) (proj2 Hpurpose))|]);
      (destruct si as [si|];
         [rewrite (text_rules_accept 100 si (proj1 Hsession) (proj2 Hsession))|]);
      reflexivity.
  - intros (name & owner & Hrn & Hlb & Hvalid).
    destruct (lockRequestSchema_value _ _ Hvalid)
      as (_ & Hrules & _ & Hlrules & Hdur & _).
    destruct (lockRequestSchema_options _ _ Hvalid) as (Ht & Hp & Hs).
    simpl in Hrules, Hlrules.
    apply resourceName_rules_pass in Hrules.
    apply lockedBy_rules_pass in Hlrules.
    unfold well_formed_acquire. split; [exists name; tauto|].
    split; [exists owner; tauto|].
    split.
    { destruct (body_lockDuration body) as [n|]; [|exact I].
      apply lockDuration_rules_pass. now apply Hdur. }
    split.
    { destruct (body_lockType body) as [t|]; [|exact I].
      apply lockType_rules_iff. now apply Ht. }
    split.
    { unfold optional_text. destruct (body_purpose body) as [s|]; [|exact I].
      apply text_rules_pass. now apply Hp. }
    unfold optional_text. destruct (body_sessionId body) as [s|]; [|exact I].
    apply text_rules_pass. now apply Hs.
Qed.

(** ** Error middleware *)

(** X20.  A request that no route matches, other than an OPTIONS request
    and with a body that [express.json ()] did not refuse, is answered 404
    with [success: false] and the message Not Found followed by the URL
    asked for; the stack of the error is sent unless [NODE_ENV] is
    production.  An OPTIONS request is answered by [cors ()] instead, and a
    request with a refused body is answered 500 with the message of the
    parser's error. *)
Theorem unmatched_route_is_404 NODE_ENV now req stack :
  (in_method req <> "OPTIONS" ->
   in_body_error req = None ->
   exists body,
     unmatched_route NODE_ENV now req stack = Failed body
     /\ error_status body = 404
     /\ error_success body = false
     /\ error_message body = "Not Found - " ++ in_originalUrl req
     /\ (error_stack body = None <-> NODE_ENV = Some "production")
     /\ (NODE_ENV <> Some "production" -> error_stack body = Some stack))
  /\ (in_method req = "OPTIONS" ->
      unmatched_route NODE_ENV now req stack = Preflight)
  /\ (forall err,
        in_method req <> "OPTIONS" ->
        in_body_error req = Some err ->
        exists body,
          unmatched_route NODE_ENV now req stack = Failed body
          /\ error_status body = 500
          /\ error_success body = false
          /\ error_message body = err_message err).
Proof.
  unfold unmatched_route. split; [|split].
  - intros Hmethod Hbody.
    rewrite (proj2 (String.eqb_neq _ _) Hmethod), Hbody.
    unfold notFound, errorHandler; simpl.
    eexists. split; [reflexivity|]. simpl. repeat split; try reflexivity.
    + destruct NODE_ENV as [env|]; [|discriminate].
      destruct (String.eqb_spec env "production"); [now subst|discriminate].
    + intros ->. reflexivity.
    + intros Hne. destruct NODE_ENV as [env|]; [|reflexivity].
      destruct (String.eqb_spec env "production"); [|reflexivity].
      subst. contradiction.
  - intros ->. reflexivity.
  - intros err Hmethod Hbody.
    rewrite (proj2 (String.eqb_neq _ _) Hmethod), Hbody.
    eexists. split; [reflexivity|]. repeat split.
Qed.

(** X21.  The error handler never answers 200: an error that reaches it
    while the response still has status 200 is answered 500, and any other
    status set before it is kept; the answer always has [success: false]
    and the message of the error. *)
Theorem errorHandler_never_200 NODE_ENV now err res_statusCode :
  let body := errorHandler NODE_ENV now err res_statusCode in
  error_status body <> 200
  /\ (res_statusCode = 200 -> error_status body = 500)
  /\ (res_statusCode <> 200 -> error_status body = res_statusCode)
  /\ error_success body = false
  /\ error_message body = err_message err.
Proof.
  unfold errorHandler; simpl.
  destruct (Z.eqb_spec res_statusCode 200) as [->|Hne]; repeat split;
    try assumption; try discriminate; try reflexivity; contradiction.
Qed.

(** ** The clean-up and the next Acquire *)

(** X22.  Once a clean-up tick has run after every lease on a resource
    name expired, the name is free again: the next Acquire of it, under an
    identifier not in use, passes the pre-check and the insert and answers
    201. *)
Theorem cleanup_frees_expired_name t now id client req st :
  (forall d, In d st -> resourceName d = req_resourceName req ->
             expiresAt d < t) ->
  (forall d, In d st -> _id d <> id) ->
  let swept := store_after (cleanup t st) in
  let lease := new_lock now id client req in
  lock_handler no_others now id client req swept
  = (inr (mkResponse 201 true "Resource locked successfully"
            (Created lease (remainingTime now lease))),
     (swept ++ [lease])%list, [OpFindOne; OpSave]).
Proof.
  intros Hexpired Hid swept lease.
  assert (Hswept : forall d, In d swept ->
            resourceName d <> req_resourceName req /\ _id d <> id).
  { unfold swept. rewrite cleanup_run. unfold store_after; simpl.
    intros d Hd. apply filter_In in Hd. destruct Hd as [Hd Hkeep].
    split; [|now apply Hid].
    intros Hname. specialize (Hexpired d Hd Hname).
    unfold expiresAt_lt in Hkeep. apply negb_true_iff, Z.ltb_ge in Hkeep. lia. }
  rewrite lock_handler_insert.
  - cbv zeta. unfold no_others. fold lease.
    rewrite fresh_key_not_duplicate; [reflexivity|].
    intros d Hd. simpl. now apply Hswept.
  - apply getLockInfo_none. intros d Hd Hdn. now destruct (Hswept d Hd).
Qed.

(** ** Instances of the further properties *)

Lemma sample_store_consistent : consistent sample_store.
Proof.
  split; [unfold unique_names|]; simpl;
    (constructor; [simpl; intros [H|[]]; discriminate|]);
    (constructor; [simpl; tauto|constructor]).
Qed.

Lemma unlock_releases_owned_lease_witness :
  unlock_handler no_others 1000 release_by_worker_A sample_store
  = (inr (json true "Resource unlocked successfully"
            (Unlocked "db-migration-01" "worker-A" 1000)),
     [lock_of_worker_C], [OpFindOne; OpDeleteOne]).
Proof.
  refine (proj1 (unlock_releases_owned_lease 1000 release_by_worker_A
                   sample_store lock_of_worker_A _ _ _ _ _)).
  - exact sample_store_consistent.
  - left. reflexivity.
  - reflexivity.
  - reflexivity.
  - unfold active. simpl. lia.
Defined.

Lemma unlock_without_active_lease_witness :
  unlock_handler no_others 400000 release_by_worker_A sample_store
  = (inr (mkResponse 404 false
            "Lock not found or you are not authorized to unlock this resource"
            NoPayload),
     sample_store, [OpFindOne]).
Proof.
  refine (proj1 (unlock_without_active_lease no_others 400000
                   release_by_worker_A sample_store _)).
  intros d [<-|[<-|[]]] _ _; simpl; lia.
Defined.

Lemma unlock_race_is_benign_witness :
  unlock_handler all_gone 1000 release_by_worker_A sample_store
  = (inr (json true "Resource unlocked successfully"
            (Unlocked "db-migration-01" "worker-A" 1000)),
     [], [OpFindOne; OpDeleteOne]).
Proof.
  refine (unlock_race_is_benign all_gone 1000 release_by_worker_A sample_store
            lock_of_worker_A _ _).
  - reflexivity.
  - intros d [].
Defined.

Lemma extend_without_active_lease_witness :
  put_extend no_others 400000 "db-migration-01" extend_by_worker_A sample_store
  = (inr (mkResponse 404 false
            "Lock not found or you are not authorized to extend this lock"
            NoPayload),
     sample_store, [OpFindOne]).
Proof.
  refine (extend_without_active_lease no_others 400000 "db-migration-01"
            extend_by_worker_A sample_store _).
  intros d [<-|[<-|[]]] _ _; simpl; lia.
Defined.

Lemma force_unlock_unset_admin_key_witness :
  delete_force_unlock None 1000 "db-migration-01" None sample_store
  = (inr (json true "Resource force unlocked successfully"
            (ForceUnlocked "db-migration-01" 1000)),
     [lock_of_worker_C], [OpDeleteOne])
  /\ delete_force_unlock None 1000 "db-migration-01" (Some "guess") sample_store
     = (inr (mkResponse 403 false "Unauthorized: Invalid admin key" NoPayload),
        sample_store, []).
Proof.
  split.
  - refine (proj1 (force_unlock_unset_admin_key 1000 "db-migration-01" None
                     sample_store) _).
    reflexivity.
  - refine (proj2 (force_unlock_unset_admin_key 1000 "db-migration-01"
                     (Some "guess") sample_store) _).
    discriminate.
Defined.

Lemma force_unlock_twice_witness :
  delete_force_unlock (Some "admin-secret") 2000 "db-migration-01"
    (Some "admin-secret") [lock_of_worker_C]
  = (inr (mkResponse 404 false "Resource lock not found" NoPayload),
     [lock_of_worker_C], [OpDeleteOne]).
Proof.
  refine (force_unlock_twice (Some "admin-secret") 1000 2000 "db-migration-01"
            sample_store _).
  exact (proj1 sample_store_consistent).
Defined.

Lemma force_unlock_frees_name_witness :
  let lease := new_lock 2000 3%nat sample_client request_of_worker_B in
  lock_handler no_others 2000 3%nat sample_client request_of_worker_B
    [lock_of_worker_C]
  = (inr (mkResponse 201 true "Resource locked successfully"
            (Created lease (remainingTime 2000 lease))),
     [lock_of_worker_C; lease], [OpFindOne; OpSave]).
Proof.
  refine (force_unlock_frees_name (Some "admin-secret") 1000 2000 3%nat
            sample_client request_of_worker_B sample_store _ _).
  - exact (proj1 sample_store_consistent).
  - intros d [<-|[<-|[]]]; simpl; discriminate.
Defined.

Lemma acquire_then_unlock_restores_witness :
  unlock_handler no_others 2000 (mkUnlockRequest "cache-flush" "worker-C")
    (store_after (lock_handler no_others 1000 3%nat sample_client
                    request_without_options [lock_of_worker_A]))
  = (inr (json true "Resource unlocked successfully"
            (Unlocked "cache-flush" "worker-C" 2000)),
     [lock_of_worker_A], [OpFindOne; OpDeleteOne]).
Proof.
  refine (proj2 (acquire_then_unlock_restores 1000 2000 3%nat sample_client
                   request_without_options [lock_of_worker_A] _ _)).
  - intros d [<-|[]]. simpl. split; discriminate.
  - simpl. lia.
Defined.

Lemma cleanup_invisible_to_readers_witness :
  answer (get_resource 3000 "cache-flush"
            (store_after (cleanup 2000 sample_store)))
  = answer (get_resource 3000 "cache-flush" sample_store).
Proof.
  refine (proj1 (cleanup_invisible_to_readers any_owner 2000 3000
                   "cache-flush" first_page release_by_worker_A
                   extend_by_worker_A sample_store _)).
  lia.
Defined.

Lemma cleanup_accounts_witness :
  store_after (cleanup 500 sample_store) = sample_store.
Proof.
  destruct (cleanup_accounts 500 sample_store)
    as (deletedCount & log & _ & _ & _ & _ & Hnone).
  apply Hnone. intros d [<-|[<-|[]]]; simpl; lia.
Defined.


Lemma listing_pages_tile_witness :
  Permutation (first_pages any_owner 500 one_per_page sample_store 2)
    sample_store.
Proof.
  refine (proj2 (listing_pages_tile any_owner 500 one_per_page sample_store 2
                   _ _) _).
  - exists None. reflexivity.
  - simpl. lia.
  - simpl. lia.
Defined.

Lemma listing_respects_filters_witness :
  In lock_of_worker_A sample_store
  /\ active 500 lock_of_worker_A
  /\ (forall t, query_lockType write_locks = Some t -> t <> "" ->
        lockType lock_of_worker_A = t)
  /\ (forall p, query_lockedBy write_locks = Some p -> p <> "" ->
        exists test,
          any_owner p = Some test /\ test (lockedBy lock_of_worker_A) = true).
Proof.
  refine (listing_respects_filters any_owner 500 write_locks sample_store
            lock_of_worker_A _).
  simpl. left. reflexivity.
Defined.

Lemma listing_ignores_empty_filters_witness :
  get_resources any_owner 500 (mkListQuery None None (Some "") None)
    sample_store
  = get_resources any_owner 500 first_page sample_store.
Proof.
  refine (listing_ignores_empty_filters any_owner 500 None None (Some "") None
            sample_store _ _).
  - right. reflexivity.
  - left. reflexivity.
Defined.

Lemma malformed_release_is_rejected_witness :
  post_unlock no_others 1000 (mkUnlockBody (Some "db-migration-01") (Some ""))
    sample_store
  = (inr (mkResponse 400 false "Validation error"
            (ValidationErrors [mkDetail FLockedBy StringEmpty])),
     sample_store, []).
Proof.
  destruct (malformed_release_is_rejected no_others 1000
              (mkUnlockBody (Some "db-migration-01") (Some "")) sample_store)
    as (detail & Hrun & _ & Honly).
  - unfold malformed_release. simpl.
    right. right. right. right. right. left. reflexivity.
  - rewrite Hrun.
    rewrite (Honly (mkDetail FLockedBy StringEmpty)); [reflexivity|].
    apply release_fails_on_owner; simpl.
    + exists "db-migration-01". repeat split; [discriminate|simpl; lia].
    + now apply owner_empty.
Defined.

Lemma lock_and_unlock_schemas_agree_witness :
  unlockRequestSchema (mkUnlockBody (Some "db-migration-01") (Some "worker-A"))
  = inr release_by_worker_A.
Proof.
  refine (proj1 (lock_and_unlock_schemas_agree "db-migration-01" "worker-A") _).
  eexists. reflexivity.
Defined.

Lemma lock_schema_accepts_well_formed_witness :
  exists name owner,
    body_resourceName body_without_options = Some name
    /\ body_lockedBy body_without_options = Some owner
    /\ lockRequestSchema body_without_options
       = inr (mkLockRequest name owner (Some 300) (Some "exclusive")
                (Some "") (Some "")).
Proof.
  refine (proj1 (lock_schema_accepts_well_formed body_without_options) _).
  unfold well_formed_acquire, optional_text. simpl. split.
  - exists "cache-flush". repeat split; [discriminate|simpl; lia].
  - split; [|tauto].
    exists "worker-C". repeat split; [discriminate|simpl; lia].
Defined.

Lemma unmatched_route_is_404_witness :
  exists body,
    unmatched_route (Some "development") 1000
      (mkIncoming "GET" "/api/nothing" None) "Error: Not Found"
    = Failed body
    /\ error_status body = 404
    /\ error_success body = false
    /\ error_message body = "Not Found - /api/nothing"
    /\ (error_stack body = None <-> Some "development" = Some "production")
    /\ (Some "development" <> Some "production" ->
        error_stack body = Some "Error: Not Found").
Proof.
  refine (proj1 (unmatched_route_is_404 (Some "development") 1000
                   (mkIncoming "GET" "/api/nothing" None) "Error: Not Found")
            _ _).
  - simpl. discriminate.
  - reflexivity.
Defined.

Lemma errorHandler_never_200_witness :
  error_status (errorHandler None 1000 (mkJsError "Unexpected token" "") 200)
  = 500.
Proof.
  refine (proj1 (proj2 (errorHandler_never_200 None 1000
                          (mkJsError "Unexpected token" "") 200)) _).
  reflexivity.
Defined.

Lemma cleanup_frees_expired_name_witness :
  let lease := new_lock 3000 3%nat sample_client request_without_options in
  lock_handler no_others 3000 3%nat sample_client request_without_options
    (store_after (cleanup 2000 sample_store))
  = (inr (mkResponse 201 true "Resource locked successfully"
            (Created lease (remainingTime 3000 lease))),
     (store_after (cleanup 2000 sample_store) ++ [lease])%list,
     [OpFindOne; OpSave]).
Proof.
  refine (cleanup_frees_expired_name 2000 3000 3%nat sample_client
            request_without_options sample_store _ _).
  - intros d [<-|[<-|[]]]; simpl; intros H; [discriminate|lia].
  - intros d [<-|[<-|[]]]; simpl; discriminate.
Defined.
